(** * pchpc/streets: vehicle stepping and spatial partitioning

    A shallow embedding of [streets/vehicles.go] and [streets/graph.go].

    Go's [float64] is IEEE 754 binary64; it is embedded as Rocq's primitive
    [float], whose operations are the same binary64 operations with
    round-to-nearest-even.  Go's [int] values are embedded as [Z].
    Pointers to edges are indices into the graph's edge table, a nil pointer
    is [None], and a run-time panic is the [Panic] result. *)

From Stdlib Require Import ZArith List Floats Uint63 Lia.
From stdpp Require Import base option list gmap strings.

Local Open Scope Z_scope.

(** ** Results of code that may panic *)

Inductive result (A : Type) : Type :=
| Ok (a : A)
| Panic (msg : string).
Arguments Ok {A} a.
Arguments Panic {A} msg.

Definition bind {A B : Type} (r : result A) (k : A → result B) : result B :=
  match r with
  | Ok a => k a
  | Panic msg => Panic msg
  end.

Notation "'let?' x ':=' r 'in' k" := (bind r (λ x, k))
  (at level 10, x name, r at level 100, k at level 200).
Notation "'let?' ' p ':=' r 'in' k" := (bind r (λ p, k))
  (at level 10, p pattern, r at level 100, k at level 200).

(** ** Floating-point helpers *)

Module F.

Definition zero : float := 0%float.

Definition hundred : float := 100%float.

(** Go's [float64(n)] for a non-negative [int]. *)
Definition of_int (n : Z) : float := PrimFloat.of_uint63 (Uint63.of_Z n).

(** Go's [x != 0]. *)
Definition nonzero (x : float) : bool := negb (PrimFloat.eqb x zero).

(** [x] is a number: a zero or a finite non-zero value. *)
Definition finite (x : float) : bool :=
  match Prim2SF x with
  | S754_zero _ | S754_finite _ _ _ => true
  | _ => false
  end.

(** [x] is the negative zero. *)
Definition negzero (x : float) : bool :=
  match Prim2SF x with
  | S754_zero true => true
  | _ => false
  end.

End F.

(** ** Data model of the street network *)

Module Streets.

(** [streets.Vertex]; only its identifier is read by the code below. *)
Record Vertex : Type := mkVertex { VID : Z }.

(** [streets.Edge]: [Q] is the FIFO of the identifiers of the vehicles on the
    edge, front first. *)
Record Edge : Type := mkEdge {
  EID : Z;
  FromVertex : Z;
  ToVertex : Z;
  Length : float;
  MaxSpeed : float;
  Q : list string
}.

(** [streets.Graph]: the table of edges.  A [*Edge] is an index into it. *)
Record Graph : Type := mkGraph { Edges : list Edge }.

Record Path : Type := mkPath { Vertices : list Vertex }.

(** [streets.Vehicle].  [PathLength] is the deque of remaining distances,
    front first.  The [Graph] field of the source is a pointer to the shared
    network; here the network is threaded through the operations. *)
Record Vehicle : Type := mkVehicle {
  ID : string;
  Speed : float;
  VPath : Path;
  PathLength : list float;
  IsParked : bool;
  CurrentEdge : option nat
}.

Definition NotInQueue : Z := -1.

(** ** Edge queue *)

(** Modelled from the spec: [Edge.GetPosition] is not among the sources.
    "positionOf(vehicle): linear scan returning 0-based index from front, or
    a sentinel if absent". *)
Definition GetPosition (e : Edge) (v : Vehicle) : Z :=
  match list_find (λ x, x = ID v) (Q e) with
  | Some (i, _) => Z.of_nat i
  | None => NotInQueue
  end.

(** Modelled from the spec: [Edge.PushVehicle] is not among the sources.
    "push(vehicle) appends to the back; fails (no-op) if the vehicle is
    already present". *)
Definition PushVehicle (e : Edge) (v : Vehicle) : Edge :=
  if decide (ID v ∈ Q e) then e
  else mkEdge (EID e) (FromVertex e) (ToVertex e) (Length e) (MaxSpeed e)
              (Q e ++ [ID v]).

(** Modelled from the spec: [Edge.PopVehicle] is not among the sources.
    "pop() removes and returns the front element; fails if empty". *)
Definition PopVehicle (e : Edge) : result (string * Edge) :=
  match Q e with
  | [] => Panic "PopVehicle: empty queue"
  | x :: q' =>
      Ok (x, mkEdge (EID e) (FromVertex e) (ToVertex e) (Length e)
                    (MaxSpeed e) q')
  end.

(** Modelled from the spec: [Edge.FrontVehicle] is not among the sources.
    "front() → Vehicle?, used to determine whether a vehicle is leading (no
    vehicle ahead of it) — a vehicle is leading iff it occupies index 0".
    The result is the vehicle ahead of [v], [None] when [v] is at index 0.
    The spec does not say what a vehicle that is not on the edge gets; here
    it has the whole queue ahead of it.  No property below rests on that
    case. *)
Definition FrontVehicle (e : Edge) (v : Vehicle) : option string :=
  match list_find (λ x, x = ID v) (Q e) with
  | Some (O, _) => None
  | Some (S i, _) => Q e !! i
  | None => last (Q e)
  end.

(** Modelled from the spec: [Graph.GetCorrespondingEdge] is not among the
    sources.  "a directed adjacency/edge-lookup used by
    GetCorrespondingEdge(v1, v2) → Edge | NotFound". *)
Definition GetCorrespondingEdge (g : Graph) (v1 v2 : Vertex)
  : option (nat * Edge) :=
  list_find (λ e, FromVertex e = VID v1 ∧ ToVertex e = VID v2) (Edges g).

(** Writing through a [*Edge]: the edge at index [i] is replaced. *)
Definition setEdge (g : Graph) (i : nat) (e : Edge) : Graph :=
  mkGraph (<[i := e]> (Edges g)).

(** Dereferencing a [*Edge]. *)
Definition deref (g : Graph) (p : option nat) : result Edge :=
  match p with
  | None => Panic "nil pointer dereference"
  | Some i =>
      match Edges g !! i with
      | Some e => Ok e
      | None => Panic "dangling edge pointer"
      end
  end.

(** ** Vehicles *)

(** [Vehicle.GetPathLengths]: the length of the edge between each pair of
    consecutive path vertices; a missing edge panics. *)
Fixpoint pathLengthsFrom (g : Graph) (vs : list Vertex) : result (list float) :=
  match vs with
  | [] => Ok []
  | vertex :: rest =>
      match rest with
      | [] => Ok []
      | next :: _ =>
          match GetCorrespondingEdge g vertex next with
          | None => Panic "Failed to get corresponding edge"
          | Some (_, edge) =>
              let? lengths := pathLengthsFrom g rest in
              Ok (Length edge :: lengths)
          end
      end
  end.

Definition GetPathLengths (g : Graph) (path : Path) : result (list float) :=
  pathLengthsFrom g (Vertices path).

(** [NewVehicle]: the identifier drawn by [nanoid.New()] is the argument
    [id]; the non-zero lengths are pushed to the back of the deque in path
    order. *)
Definition NewVehicle (id : string) (path : Path) (speed : float) (g : Graph)
  : result Vehicle :=
  let? pathLength := GetPathLengths g path in
  Ok (mkVehicle id speed path (filter (λ x, F.nonzero x = true) pathLength)
                false None).

(** The first loop of [GetCurrentEdge]: the index of the first non-zero
    deque entry, [0] when there is none. *)
Fixpoint firstNonZeroFrom (i : nat) (q : list float) : nat :=
  match q with
  | [] => O
  | x :: q' => if F.nonzero x then i else firstNonZeroFrom (S i) q'
  end.

Definition firstNonZero (q : list float) : nat := firstNonZeroFrom O q.

(** [Vehicle.GetCurrentEdge]: [nil] for a parked vehicle; otherwise the edge
    from [Path.Vertices[nonZeroIdx]] to [Path.Vertices[nonZeroIdx+1]].
    Indexing past the end of the path and a missing edge panic; an index
    that the loop over the path never reaches yields [nil]. *)
Definition GetCurrentEdge (g : Graph) (v : Vehicle) : result (option nat) :=
  if IsParked v then Ok None
  else
    let nonZeroIdx := firstNonZero (PathLength v) in
    match Vertices (VPath v) !! nonZeroIdx with
    | None => Ok None
    | Some vertex =>
        match Vertices (VPath v) !! S nonZeroIdx with
        | None => Panic "index out of range"
        | Some next =>
            match GetCorrespondingEdge g vertex next with
            | None => Panic "Failed to get corresponding edge"
            | Some (i, _) => Ok (Some i)
            end
        end
    end.

Definition setCurrentEdge (v : Vehicle) (p : option nat) : Vehicle :=
  mkVehicle (ID v) (Speed v) (VPath v) (PathLength v) (IsParked v) p.

Definition setPathLength (v : Vehicle) (q : list float) : Vehicle :=
  mkVehicle (ID v) (Speed v) (VPath v) q (IsParked v) (CurrentEdge v).

Definition setParked (v : Vehicle) : Vehicle :=
  mkVehicle (ID v) (Speed v) (VPath v) (PathLength v) true (CurrentEdge v).

(** [deque.Back] and [deque.PopBack]: the last element and the rest;
    both panic on an empty deque. *)
Definition popBack (q : list float) : result (float * list float) :=
  match reverse q with
  | [] => Panic "deque: PopBack() called when empty"
  | x :: r => Ok (x, reverse r)
  end.

Definition pushBack (q : list float) (x : float) : list float := q ++ [x].

(** The network after steps 1 and 2 of [drive]: the vehicle is on the
    resolved edge. *)
Definition entered (g : Graph) (i : nat) (e : Edge) (v : Vehicle) : Graph :=
  setEdge g i (PushVehicle e v).

(** [Vehicle.drive] on the shared network [g].  [q.Back()] is the first
    component of [popBack q]; each branch of the source pops that entry
    first. *)
Definition drive (g : Graph) (v : Vehicle) : result (Graph * Vehicle) :=
  let? ce := GetCurrentEdge g v in
  let v := setCurrentEdge v ce in
  let? e := deref g ce in
  let g :=
    if decide (GetPosition e v = NotInQueue)
    then match ce with
         | Some i => setEdge g i (PushVehicle e v)
         | None => g
         end
    else g in
  let q := PathLength v in
  let? '(back, q1) := popBack q in
  if PrimFloat.leb back (Speed v) && bool_decide (1 < length q)%nat then
    let? '(bM, q2) := popBack q1 in
    Ok (g, setPathLength v (pushBack q2 (back + bM)%float))
  else if PrimFloat.leb back (Speed v) && bool_decide (length q = 1%nat) then
    let? e' := deref g ce in
    let? '(_, e'') := PopVehicle e' in
    let g := match ce with
             | Some i => setEdge g i e''
             | None => g
             end in
    Ok (g, setParked (setPathLength v q1))
  else
    Ok (g, setPathLength v (pushBack q1 (back - Speed v)%float)).

(** [Vehicle.Step]. *)
Definition Step (g : Graph) (v : Vehicle) : result (Graph * Vehicle) :=
  if IsParked v then Ok (g, v) else drive g v.

(** [Vehicle.IsLeading]: [v.CurrentEdge.FrontVehicle(v) == nil]; the queue of
    a nil edge cannot be read. *)
Definition IsLeading (g : Graph) (v : Vehicle) : result bool :=
  let? e := deref g (CurrentEdge v) in
  Ok (bool_decide (FrontVehicle e v = None)).

(** Running [Step] [n] times. *)
Fixpoint steps (n : nat) (g : Graph) (v : Vehicle) : result (Graph * Vehicle) :=
  match n with
  | O => Ok (g, v)
  | S k => let? '(g', v') := Step g v in steps k g' v'
  end.

End Streets.

(** ** The graph library

    [github.com/dominikbraun/graph] with its in-memory store, as far as the
    partitioner uses it: vertices keyed by their hash, edges keyed by
    (source, target).  An undirected graph stores every edge under both
    orientations and looks an edge up under both. *)

Module Lib.

Inductive error : Type :=
| ErrVertexNotFound
| ErrVertexAlreadyExists
| ErrEdgeNotFound
| ErrEdgeAlreadyExists.

(** [GVertex]: a vertex with its coordinates. *)
Record GVertex : Type := mkGVertex { GID : Z; X : float; Y : float }.

Record LGraph : Type := mkLGraph {
  directed : bool;
  vertices : gmap Z GVertex;
  edges : gset (Z * Z)
}.

(** [graph.New(hash, options...)]; the hash is [GVertex.ID] throughout. *)
Definition New (isDirected : bool) : LGraph := mkLGraph isDirected ∅ ∅.

(** [Vertex(hash)]. *)
Definition Vertex (g : LGraph) (k : Z) : error + GVertex :=
  match vertices g !! k with
  | Some v => inr v
  | None => inl ErrVertexNotFound
  end.

(** [AddVertex(v)]: the graph after the call and the error, if any. *)
Definition AddVertex (g : LGraph) (v : GVertex) : LGraph * option error :=
  match vertices g !! GID v with
  | Some _ => (g, Some ErrVertexAlreadyExists)
  | None => (mkLGraph (directed g) (<[GID v := v]> (vertices g)) (edges g), None)
  end.

(** [Edge(source, target)] succeeds. *)
Definition hasEdge (g : LGraph) (s t : Z) : bool :=
  bool_decide ((s, t) ∈ edges g)
  || (negb (directed g) && bool_decide ((t, s) ∈ edges g)).

(** [AddEdge(source, target)]. *)
Definition AddEdge (g : LGraph) (s t : Z) : LGraph * option error :=
  match vertices g !! s, vertices g !! t with
  | None, _ => (g, Some ErrVertexNotFound)
  | _, None => (g, Some ErrVertexNotFound)
  | Some _, Some _ =>
      if hasEdge g s t then (g, Some ErrEdgeAlreadyExists)
      else
        let es := if directed g then {[ (s, t) ]} ∪ edges g
                  else {[ (s, t) ]} ∪ ({[ (t, s) ]} ∪ edges g) in
        (mkLGraph (directed g) (vertices g) es, None)
  end.

(** [Edges()]: every edge; an undirected graph lists an edge once, under
    one of its two orientations.  The order of the result is unspecified and
    no caller below depends on it, nor on the orientation chosen. *)
Definition Edges (g : LGraph) : list (Z * Z) :=
  if directed g then elements (edges g)
  else filter (λ e, e.1 ≤ e.2) (elements (edges g)).

(** [VertexInGraph] of [graph.go]. *)
Definition VertexInGraph (g : LGraph) (v : GVertex) : bool :=
  match Vertex g (GID v) with
  | inl _ => false
  | inr _ => true
  end.

(** The invariant of the library's graphs: an edge joins vertices of the
    graph ([AddEdge] refuses any other, and a vertex with edges cannot be
    removed), and an undirected graph stores both orientations of an
    edge. *)
Definition wf (g : LGraph) : Prop :=
  (∀ s t, (s, t) ∈ edges g →
     is_Some (vertices g !! s) ∧ is_Some (vertices g !! t)) ∧
  (directed g = false → ∀ s t, (s, t) ∈ edges g → (t, s) ∈ edges g).

(** Storing [w] under its hash, whatever was there. *)
Definition putVertex (g : LGraph) (w : GVertex) : LGraph :=
  mkLGraph (directed g) (<[GID w := w]> (vertices g)) (edges g).

End Lib.

(** ** The partitioner *)

Module Partition.
Import Lib.

Record Point : Type := mkPoint { PX : float; PY : float }.

Record Rect : Type := mkRect {
  TopRight : Point;
  BotLeft : Point;
  RVertices : list GVertex
}.

(** The vertices and edges of the JSON description, as [NewGraph] reads
    them. *)
Record JVertex : Type := mkJVertex { OsmID : Z; JX : float; JY : float }.

Record JEdge : Type := mkJEdge {
  From : Z;
  To : Z;
  JLength : float;
  JMaxSpeed : string
}.

(** [NewGraph]: the directed source network.  The errors of [AddVertex] and
    [AddEdge] are dropped as in the source.  The [EdgeData] attached to an
    edge (speed limit, length, vehicle map) is read by no operation of the
    partitioner and is not kept in [LGraph]. *)
Definition NewGraph (vertices : list JVertex) (edges : list JEdge) : LGraph :=
  let g := New true in
  let g := foldl (λ g vertex,
             (AddVertex g (mkGVertex (OsmID vertex) (JX vertex) (JY vertex))).1)
             g vertices in
  foldl (λ g edge, (AddEdge g (From edge) (To edge)).1) g edges.

(** [RawEdge[int]]. *)
Record RawEdge : Type := mkRawEdge { Source : Z; Target : Z }.

(** [Rect.InRect]. *)
Definition InRect (r : Rect) (v : GVertex) : bool :=
  existsb (λ vertex, bool_decide (GID vertex = GID v)) (RVertices r).

(** Looking up every key in turn, the first failure aborting. *)
Fixpoint lookupAll (g : LGraph) (keys : list Z) : error + list GVertex :=
  match keys with
  | [] => inr []
  | key :: rest =>
      match Vertex g key with
      | inl err => inl err
      | inr vertex =>
          match lookupAll g rest with
          | inl err => inl err
          | inr vs => inr (vertex :: vs)
          end
      end
  end.

(** The key set of the [map[int]bool] that [GetVertices] fills. *)
Definition endpointSet (es : list (Z * Z)) : gset Z :=
  foldl (λ (m : gset Z) e, {[ e.2 ]} ∪ ({[ e.1 ]} ∪ m)) ∅ es.

(** [GetVertices].  Go iterates over a map in an unspecified order; [ord]
    is the order in which this call ranges over the keys. *)
Definition GetVertices (ord : list Z → list Z) (g : LGraph)
  : error + list GVertex :=
  let vs := endpointSet (Edges g) in
  let keys := ord (elements vs) in
  lookupAll g keys.

(** One iteration of the scan of [GetTopRightBottomLeftVertices] over the
    running extrema (botX, botY, topX, topY). *)
Definition scanStep (acc : float * float * float * float) (vertex : GVertex)
  : float * float * float * float :=
  let '(botX, botY, topX, topY) := acc in
  let botX := if PrimFloat.ltb (X vertex) botX then X vertex else botX in
  let botY := if PrimFloat.ltb (Y vertex) botY then Y vertex else botY in
  let topX := if PrimFloat.ltb topX (X vertex) then X vertex else topX in
  let topY := if PrimFloat.ltb topY (Y vertex) then Y vertex else topY in
  (botX, botY, topX, topY).

(** The four running extrema. *)
Definition accBotX (acc : float * float * float * float) : float := acc.1.1.1.
Definition accBotY (acc : float * float * float * float) : float := acc.1.1.2.
Definition accTopX (acc : float * float * float * float) : float := acc.1.2.
Definition accTopY (acc : float * float * float * float) : float := acc.2.

Definition seedBox : float * float * float * float :=
  (F.hundred, F.hundred, F.zero, F.zero).

Definition scanBox (vs : list GVertex) : Point * Point :=
  let '(botX, botY, topX, topY) := foldl scanStep seedBox vs in
  (mkPoint botX botY, mkPoint topX topY).

(** [GetTopRightBottomLeftVertices]: (bot, top); both are the zero point
    when the vertices cannot be read. *)
Definition GetTopRightBottomLeftVertices (ord : list Z → list Z) (g : LGraph)
  : Point * Point :=
  match GetVertices ord g with
  | inl _ => (mkPoint F.zero F.zero, mkPoint F.zero F.zero)
  | inr vs => scanBox vs
  end.

(** The body of the loop of [DivideGraphsIntoRects] for index [i]. *)
Definition strip (n : Z) (rootBot rootTop : Point) (vs : list GVertex) (i : Z)
  : Rect :=
  let xDelta := (PX rootTop - PX rootBot)%float in
  let botX := (PX rootBot + (xDelta / F.of_int n) * F.of_int i)%float in
  let topX := (PX rootBot + (xDelta / F.of_int n) * F.of_int (i + 1))%float in
  mkRect (mkPoint topX (PY rootTop)) (mkPoint botX (PY rootBot))
    (filter (λ vertex,
       (PrimFloat.leb (PY rootBot) (Y vertex) && PrimFloat.leb (Y vertex) (PY rootTop))
       && (PrimFloat.leb botX (X vertex) && PrimFloat.leb (X vertex) topX) = true)
       vs).

(** [DivideGraphsIntoRects]: [ord1] and [ord2] are the map iteration orders
    of its two calls of [GetVertices]; [make([]Rect, n)] panics for a
    negative [n].  [n] is a Go [int], so below 2^63. *)
Definition DivideGraphsIntoRects (ord1 ord2 : list Z → list Z) (n : Z)
    (g : LGraph) : result (error + list Rect) :=
  let '(rootBot, rootTop) := GetTopRightBottomLeftVertices ord1 g in
  match GetVertices ord2 g with
  | inl err => Ok (inl err)
  | inr vs =>
      if decide (n < 0) then Panic "makeslice: len out of range"
      else Ok (inr (strip n rootBot rootTop vs <$> seqZ 0 n))
  end.

(** The membership scan of [GraphFromRect] and [InRect]: some vertex of the
    rect has the identifier [k]. *)
Definition hasID (rect : Rect) (k : Z) : bool :=
  existsb (λ vertex, bool_decide (GID vertex = k)) (RVertices rect).

(** What the loop of [GraphFromRect] over the edges keeps true: the graph is undirected, it
    has a vertex for exactly the identifiers of the rect, and it stores both
    orientations of every edge. *)
Definition rectGraph (rect : Rect) (g : LGraph) : Prop :=
  directed g = false ∧
  (∀ k, is_Some (vertices g !! k) ↔ hasID rect k = true) ∧
  (∀ a b, (a, b) ∈ edges g → (b, a) ∈ edges g).

(** [GraphFromRect]: the loop over the input edges. *)
Definition addRectEdge (rect : Rect) (g : LGraph) (edge : RawEdge) : LGraph :=
  let src := Source edge in
  let dst := Target edge in
  let srcInRect := hasID rect src in
  let dstInRect := hasID rect dst in
  if srcInRect && dstInRect then (AddEdge g src dst).1 else g.

Definition GraphFromRect (es : list RawEdge) (rect : Rect) : LGraph :=
  let g := New false in
  let g := foldl (λ g vertex, (AddVertex g vertex).1) g (RVertices rect) in
  foldl (addRectEdge rect) g es.

End Partition.

(** ** Summing a ledger

    Floating-point addition is not associative, so a sum has to fix an
    order.  The ledger is summed from its back, the end that [drive]
    consumes and the order in which [drive] itself adds two entries. *)

Module Ledger.

Definition sumFromBack (q : list float) : float :=
  match reverse q with
  | [] => F.zero
  | b :: r => foldl PrimFloat.add b r
  end.

(** The same entries accumulated from the front, for comparison. *)
Definition sumFromFront (q : list float) : float :=
  foldl PrimFloat.add F.zero q.

End Ledger.

(** ** Concrete networks and vehicles *)

Module Examples.
Import Streets.

(** Two consecutive edges 1 → 2 → 3 of lengths 10 and 5. *)
Definition twoEdges : Graph :=
  mkGraph [mkEdge 0 1 2 10 50 []; mkEdge 1 2 3 5 50 []].

Definition path123 : Path := mkPath [mkVertex 1; mkVertex 2; mkVertex 3].

(** A vehicle on [path123] as [NewVehicle] returns it. *)
Definition fresh123 (speed : float) : Vehicle :=
  mkVehicle "car" speed path123 [10%float; 5%float] false None.

(** Three consecutive edges 1 → 2 → 3 → 4 of lengths 10, 0 and 5. *)
Definition withZeroEdge : Graph :=
  mkGraph [mkEdge 0 1 2 10 50 []; mkEdge 1 2 3 0 50 []; mkEdge 2 3 4 5 50 []].

Definition path1234 : Path :=
  mkPath [mkVertex 1; mkVertex 2; mkVertex 3; mkVertex 4].

(** One edge 1 → 2 of the given length, with the given queue. *)
Definition oneEdge (len : float) (q : list string) : Graph :=
  mkGraph [mkEdge 0 1 2 len 50 q].

Definition path12 : Path := mkPath [mkVertex 1; mkVertex 2].

Definition fresh12 (id : string) (len speed : float) : Vehicle :=
  mkVehicle id speed path12 [len] false None.

(** A vehicle on [path12] that has already entered the edge. *)
Definition onEdge12 (id : string) (remaining speed : float) : Vehicle :=
  mkVehicle id speed path12 [remaining] false (Some O).

(** A directed graph with one edge 1 → 2 whose coordinates all exceed 100. *)
Definition above100 : Lib.LGraph :=
  (Lib.AddEdge
     (Lib.AddVertex
        (Lib.AddVertex (Lib.New true) (Lib.mkGVertex 1 150 200)).1
        (Lib.mkGVertex 2 120 300)).1
     1 2).1.

(** A directed graph with one edge 1 → 2 between (0, 0) and (1, 1). *)
Definition unitSpan : Lib.LGraph :=
  (Lib.AddEdge
     (Lib.AddVertex
        (Lib.AddVertex (Lib.New true) (Lib.mkGVertex 1 0 0)).1
        (Lib.mkGVertex 2 1 1)).1
     1 2).1.

(** The iteration order that ranges over the keys as they are listed. *)
Definition asListed (keys : list Z) : list Z := keys.

(** Integer ceiling of a quotient of positive integers. *)
Definition ceilDiv (a b : Z) : Z := (a + b - 1) / b.

End Examples.

(** ** Running extrema

    The scan of [GetTopRightBottomLeftVertices] keeps, for each of the four
    bounds, a running minimum or maximum of one coordinate. *)

Module Scan.
Import Lib.

Definition runningMin (f : GVertex → float) (b : float) (vs : list GVertex)
  : float :=
  foldl (λ b v, if PrimFloat.ltb (f v) b then f v else b) b vs.

Definition runningMax (f : GVertex → float) (t : float) (vs : list GVertex)
  : float :=
  foldl (λ t v, if PrimFloat.ltb t (f v) then f v else t) t vs.

(** The vertices of a graph are stored under their own identifier
    ([AddVertex] stores a vertex under its hash). *)
Definition keyed (g : LGraph) : Prop :=
  ∀ k v, vertices g !! k = Some v → GID v = k.

End Scan.

(** * Properties *)

Section QueueFacts.
Import Streets.

Lemma GetPosition_absent (e : Edge) (v : Vehicle) :
  GetPosition e v = NotInQueue ↔ ID v ∉ Q e.
Proof.
  unfold GetPosition, NotInQueue.
  destruct (list_find _ (Q e)) as [[i x]|] eqn:Hf.
  - apply list_find_Some in Hf as (Hi & -> & _).
    split; [lia|]. intros Hn. exfalso. apply Hn.
    eapply list_elem_of_lookup_2; eauto.
  - split; [|done]. intros _ Hin.
    apply list_find_None in Hf.
    rewrite Forall_forall in Hf. by apply (Hf _ Hin).
Qed.

Lemma GetPosition_front (e : Edge) (v : Vehicle) :
  GetPosition e v = 0 ↔ head (Q e) = Some (ID v).
Proof.
  unfold GetPosition, NotInQueue.
  destruct (list_find _ (Q e)) as [[i x]|] eqn:Hf.
  - apply list_find_Some in Hf as (Hi & -> & Hlt).
    destruct i as [|i].
    + rewrite <- head_lookup in Hi. by rewrite Hi.
    + split; [lia|]. intros Hh. rewrite head_lookup in Hh.
      exfalso. apply (Hlt O (ID v)); [done|lia|done].
  - split; [lia|]. intros Hh.
    apply list_find_None in Hf. rewrite Forall_forall in Hf.
    exfalso. apply (Hf (ID v)); [|done].
    destruct (Q e); simplify_eq/=. left.
Qed.

Lemma popBack_snoc (q : list float) (x : float) :
  popBack (q ++ [x]) = Ok (x, q).
Proof. unfold popBack. by rewrite reverse_snoc, reverse_involutive. Qed.

Lemma PushVehicle_present (e : Edge) (v : Vehicle) :
  ID v ∈ Q e → PushVehicle e v = e.
Proof. intros H. unfold PushVehicle. by rewrite decide_True. Qed.

Lemma PushVehicle_absent (e : Edge) (v : Vehicle) :
  ID v ∉ Q e → Q (PushVehicle e v) = Q e ++ [ID v].
Proof. intros H. unfold PushVehicle. by rewrite decide_False. Qed.

Lemma setEdge_same (g : Graph) (i : nat) (e : Edge) :
  Edges g !! i = Some e → setEdge g i e = g.
Proof.
  intros H. destruct g as [es]. unfold setEdge. simpl in *.
  f_equal. by apply list_insert_id.
Qed.

Lemma setEdge_lookup (g : Graph) (i : nat) (e e' : Edge) :
  Edges g !! i = Some e → Edges (setEdge g i e') !! i = Some e'.
Proof.
  intros H. unfold setEdge. simpl.
  apply list_lookup_insert_eq. by eapply lookup_lt_Some.
Qed.

Lemma setEdge_lookup_ne (g : Graph) (i j : nat) (e' : Edge) :
  j ≠ i → Edges (setEdge g i e') !! j = Edges g !! j.
Proof. intros H. unfold setEdge. simpl. by apply list_lookup_insert_ne. Qed.

Lemma entered_lookup (g : Graph) (i : nat) (e : Edge) (v : Vehicle) :
  Edges g !! i = Some e →
  Edges (entered g i e v) !! i = Some (PushVehicle e v).
Proof. apply setEdge_lookup. Qed.

(** [drive] up to the case distinction on the ledger. *)
Lemma drive_enter (g : Graph) (v : Vehicle) (i : nat) (e : Edge) :
  GetCurrentEdge g v = Ok (Some i) →
  Edges g !! i = Some e →
  drive g v =
    let v := setCurrentEdge v (Some i) in
    let g := entered g i e v in
    let q := PathLength v in
    let? '(back, q1) := popBack q in
    if PrimFloat.leb back (Speed v) && bool_decide (1 < length q)%nat then
      let? '(bM, q2) := popBack q1 in
      Ok (g, setPathLength v (pushBack q2 (back + bM)%float))
    else if PrimFloat.leb back (Speed v) && bool_decide (length q = 1%nat) then
      let? e' := deref g (Some i) in
      let? '(_, e'') := PopVehicle e' in
      Ok (setEdge g i e'', setParked (setPathLength v q1))
    else
      Ok (g, setPathLength v (pushBack q1 (back - Speed v)%float)).
Proof.
  intros Hce He. unfold drive. rewrite Hce. simpl.
  rewrite He. simpl.
  destruct (decide (GetPosition e (setCurrentEdge v (Some i)) = NotInQueue))
    as [Habs|Hpres].
  - reflexivity.
  - assert (Hin : ID (setCurrentEdge v (Some i)) ∈ Q e).
    { destruct (decide (ID (setCurrentEdge v (Some i)) ∈ Q e)) as [|Hn]; [done|].
      apply GetPosition_absent in Hn. done. }
    unfold entered. rewrite (PushVehicle_present _ _ Hin).
    rewrite (setEdge_same _ _ _ He). simpl.
    by rewrite ?(list_insert_id _ _ _ He).
Qed.

End QueueFacts.

(** ** Construction of a vehicle *)

Section Construction.
Import Streets.

Lemma pathLengthsFrom_spec (g : Graph) (vs : list Vertex) (lengths : list float) :
  pathLengthsFrom g vs = Ok lengths →
  length lengths = pred (length vs) ∧
  ∀ i a b, vs !! i = Some a → vs !! S i = Some b →
    ∃ j e, GetCorrespondingEdge g a b = Some (j, e) ∧
           lengths !! i = Some (Length e).
Proof.
  revert lengths. induction vs as [|a vs IH]; intros lengths H.
  - simplify_eq/=. split; [done|]. intros i ? ? Hi. by destruct i.
  - simpl in H. destruct vs as [|b vs].
    + simplify_eq/=. split; [done|]. intros [|i] ? ? ? Hb; simplify_eq/=.
    + destruct (GetCorrespondingEdge g a b) as [[j e]|] eqn:Hab; [|done].
      destruct (pathLengthsFrom g (b :: vs)) as [ls|] eqn:Hrest; [|done].
      simpl in H. simplify_eq.
      destruct (IH ls eq_refl) as [Hlen Hall].
      split; [simpl in *; lia|].
      intros [|i] x y Hx Hy.
      * simpl in Hx, Hy. simplify_eq. eauto.
      * simpl. apply (Hall i x y); done.
Qed.

Lemma pathLengthsFrom_total (g : Graph) (vs : list Vertex) :
  (∀ i a b, vs !! i = Some a → vs !! S i = Some b →
     is_Some (GetCorrespondingEdge g a b)) →
  ∃ lengths, pathLengthsFrom g vs = Ok lengths.
Proof.
  induction vs as [|a vs IH]; intros H; [by eexists|].
  simpl. destruct vs as [|b vs]; [by eexists|].
  destruct (H O a b eq_refl eq_refl) as [[j e] Hab]. rewrite Hab.
  destruct IH as [ls Hls].
  { intros i x y Hx Hy. apply (H (S i) x y); done. }
  rewrite Hls. simpl. by eexists.
Qed.

(** A path whose consecutive vertices are all joined by an edge yields a
    vehicle. *)
Lemma NewVehicle_total (id : string) (path : Path) (speed : float) (g : Graph) :
  (∀ i a b, Vertices path !! i = Some a → Vertices path !! S i = Some b →
     is_Some (GetCorrespondingEdge g a b)) →
  ∃ v, NewVehicle id path speed g = Ok v.
Proof.
  intros H. unfold NewVehicle, GetPathLengths.
  destruct (pathLengthsFrom_total g _ H) as [ls ->]. simpl. by eexists.
Qed.

(** What [NewVehicle] builds. *)
Lemma NewVehicle_ledger
    (id : string) (path : Path) (speed : float) (g : Graph) (v : Vehicle) :
  NewVehicle id path speed g = Ok v →
  ∃ lengths : list float,
    GetPathLengths g path = Ok lengths ∧
    length lengths = pred (length (Vertices path)) ∧
    (∀ i a b, Vertices path !! i = Some a → Vertices path !! S i = Some b →
       ∃ j e, GetCorrespondingEdge g a b = Some (j, e) ∧
              lengths !! i = Some (Length e)) ∧
    PathLength v = filter (λ x, F.nonzero x = true) lengths ∧
    Forall (λ x, PrimFloat.eqb x 0 = false) (PathLength v).
Proof.
  unfold NewVehicle, GetPathLengths. intros H.
  destruct (pathLengthsFrom g (Vertices path)) as [ls|] eqn:Hls; [|done].
  simpl in H. simplify_eq. exists ls.
  destruct (pathLengthsFrom_spec _ _ _ Hls) as [Hlen Hall].
  repeat split; try done. simpl.
  apply Forall_forall. intros x Hx.
  apply list_elem_of_filter in Hx as [Hx _].
  unfold F.nonzero, F.zero in Hx. by destruct (PrimFloat.eqb x 0).
Qed.

(** C8: immediately after [NewVehicle] the ledger holds exactly the non-zero
    lengths of the edges along the path, in path order; so its sum equals the
    sum of the lengths of the path's edges without the zero-length ones, and
    no entry of the ledger is zero. *)
Theorem C8_ledger_after_construction
    (id : string) (path : Path) (speed : float) (g : Graph) (v : Vehicle) :
  NewVehicle id path speed g = Ok v →
  ∃ lengths : list float,
    GetPathLengths g path = Ok lengths ∧
    length lengths = pred (length (Vertices path)) ∧
    (∀ i a b, Vertices path !! i = Some a → Vertices path !! S i = Some b →
       ∃ j e, GetCorrespondingEdge g a b = Some (j, e) ∧
              lengths !! i = Some (Length e)) ∧
    PathLength v = filter (λ x, F.nonzero x = true) lengths ∧
    Ledger.sumFromBack (PathLength v)
      = Ledger.sumFromBack (filter (λ x, F.nonzero x = true) lengths) ∧
    Forall (λ x, PrimFloat.eqb x 0 = false) (PathLength v).
Proof.
  intros H.
  destruct (NewVehicle_ledger id path speed g v H)
    as (ls & Hls & Hlen & Hall & Hq & Hnz).
  exists ls. repeat split; try done. by rewrite Hq.
Qed.

Lemma C8_ledger_after_construction_witness :
  ∃ lengths : list float,
    GetPathLengths Examples.twoEdges Examples.path123 = Ok lengths ∧
    length lengths = pred (length (Vertices Examples.path123)) ∧
    (∀ i a b, Vertices Examples.path123 !! i = Some a →
       Vertices Examples.path123 !! S i = Some b →
       ∃ j e, GetCorrespondingEdge Examples.twoEdges a b = Some (j, e) ∧
              lengths !! i = Some (Length e)) ∧
    PathLength (Examples.fresh123 20)
      = filter (λ x, F.nonzero x = true) lengths ∧
    Ledger.sumFromBack (PathLength (Examples.fresh123 20))
      = Ledger.sumFromBack (filter (λ x, F.nonzero x = true) lengths) ∧
    Forall (λ x, PrimFloat.eqb x 0 = false) (PathLength (Examples.fresh123 20)).
Proof.
  apply (C8_ledger_after_construction "car" Examples.path123 20
           Examples.twoEdges (Examples.fresh123 20)).
  reflexivity.
Defined.

(** The zero-length edge 2 → 3 leaves no entry in the ledger. *)
Example NewVehicle_skips_zero_length :
  GetPathLengths Examples.withZeroEdge Examples.path1234
    = Ok [10%float; 0%float; 5%float] ∧
  NewVehicle "car" Examples.path1234 20 Examples.withZeroEdge
    = Ok (mkVehicle "car" 20 Examples.path1234 [10%float; 5%float] false None).
Proof. split; reflexivity. Qed.

(** The current edge of a vehicle that [NewVehicle] returned with a
    non-empty ledger resolves: it is the first edge of the path. *)
Lemma GetCurrentEdge_after_construction
    (id : string) (path : Path) (speed : float) (g : Graph) (v : Vehicle) :
  NewVehicle id path speed g = Ok v → PathLength v ≠ [] →
  ∃ a b i e,
    Vertices path !! O = Some a ∧ Vertices path !! 1%nat = Some b ∧
    GetCorrespondingEdge g a b = Some (i, e) ∧
    GetCurrentEdge g v = Ok (Some i) ∧ Edges g !! i = Some e.
Proof.
  intros Hnew Hne.
  destruct (NewVehicle_ledger id path speed g v Hnew)
    as (ls & Hls & Hlen & Hall & Hq & Hnz).
  assert (Hv : IsParked v = false ∧ VPath v = path).
  { unfold NewVehicle in Hnew. rewrite Hls in Hnew. simpl in Hnew.
    by simplify_eq. }
  destruct Hv as [Hp Hpath].
  destruct ls as [|l ls]; [by rewrite Hq in Hne|].
  destruct (Vertices path) as [|a [|b vs]] eqn:Hvs; [done..|].
  destruct (Hall O a b eq_refl eq_refl) as (i & e & Hab & _).
  exists a, b, i, e. split; [done|]. split; [done|]. split; [done|].
  split.
  - unfold GetCurrentEdge. rewrite Hp, Hpath, Hvs.
    destruct (PathLength v) as [|x q] eqn:Hpl; [done|].
    apply Forall_cons in Hnz as [Hx _].
    unfold firstNonZero. simpl. unfold F.nonzero, F.zero. rewrite Hx. simpl.
    by rewrite Hab.
  - unfold GetCorrespondingEdge in Hab.
    by apply list_find_Some in Hab as (? & _).
Qed.

End Construction.

(** ** One tick of a vehicle *)

Section Ticks.
Import Streets.

(** As long as the front entry of the ledger is not zero, the resolved edge
    is the first edge of the path, whatever the length of the ledger. *)
Lemma GetCurrentEdge_front_nonzero
    (g : Graph) (v : Vehicle) (x : float) (q : list float) :
  IsParked v = false → PathLength v = x :: q → F.nonzero x = true →
  GetCurrentEdge g v =
    match Vertices (VPath v) !! O with
    | None => Ok None
    | Some a =>
        match Vertices (VPath v) !! 1%nat with
        | None => Panic "index out of range"
        | Some b =>
            match GetCorrespondingEdge g a b with
            | None => Panic "Failed to get corresponding edge"
            | Some (i, _) => Ok (Some i)
            end
        end
    end.
Proof.
  intros Hp Hq Hx. unfold GetCurrentEdge, firstNonZero.
  rewrite Hp, Hq. simpl. by rewrite Hx.
Qed.

(** C1 (the code at a failing input): on the path 1 → 2 → 3 with edge
    lengths 10 and 5 and speed 1, [GetCurrentEdge] resolves the first edge
    1 → 2 (length 10, the front entry of the ledger), while [Step] compares
    and decrements the back entry 5, the length of the last edge 2 → 3: the
    ledger becomes [10; 4] and the vehicle sits in the queue of 1 → 2. *)
Theorem C1_step_consumes_last_edge_entry :
  NewVehicle "car" Examples.path123 1 Examples.twoEdges
    = Ok (Examples.fresh123 1) ∧
  GetCurrentEdge Examples.twoEdges (Examples.fresh123 1) = Ok (Some O) ∧
  Edges Examples.twoEdges !! O = Some (mkEdge 0 1 2 10 50 []) ∧
  Edges Examples.twoEdges !! 1%nat = Some (mkEdge 1 2 3 5 50 []) ∧
  head (PathLength (Examples.fresh123 1)) = Some 10%float ∧
  last (PathLength (Examples.fresh123 1)) = Some 5%float ∧
  Step Examples.twoEdges (Examples.fresh123 1)
    = Ok (mkGraph [mkEdge 0 1 2 10 50 ["car"]; mkEdge 1 2 3 5 50 []],
          mkVehicle "car" 1 Examples.path123 [10%float; 4%float] false (Some O)).
Proof. repeat split; reflexivity. Qed.

(** C2 (counterexample): two arrivals on the edge 1 → 2.  A vehicle whose
    first tick is its arrival (length 3, speed 5) is appended to the empty
    queue and popped again by the same [Step]: the queue has length 0 before
    and after, it does not decrease by 1.  And the arrival of "fast" behind
    "slow" pops "slow": the parked vehicle is still a member of the queue,
    another vehicle was removed. *)
Lemma C2_counterexample :
  (IsParked (Examples.fresh12 "car" 3 5) = false ∧
   PathLength (Examples.fresh12 "car" 3 5) = [3%float] ∧
   PrimFloat.leb 3 (Speed (Examples.fresh12 "car" 3 5)) = true ∧
   ∃ g' v' e e',
     Step (Examples.oneEdge 3 []) (Examples.fresh12 "car" 3 5) = Ok (g', v') ∧
     IsParked v' = true ∧ CurrentEdge v' = Some O ∧
     Edges (Examples.oneEdge 3 []) !! O = Some e ∧ Edges g' !! O = Some e' ∧
     Z.of_nat (length (Q e')) ≠ Z.of_nat (length (Q e)) - 1) ∧
  (IsParked (Examples.onEdge12 "fast" 2 5) = false ∧
   PathLength (Examples.onEdge12 "fast" 2 5) = [2%float] ∧
   PrimFloat.leb 2 (Speed (Examples.onEdge12 "fast" 2 5)) = true ∧
   ∃ g' v' e',
     Step (Examples.oneEdge 12 ["slow"; "fast"]) (Examples.onEdge12 "fast" 2 5)
       = Ok (g', v') ∧
     IsParked v' = true ∧ CurrentEdge v' = Some O ∧
     Edges g' !! O = Some e' ∧
     ID v' ∈ Q e' ∧ "slow" ∉ Q e').
Proof.
  split.
  - repeat split.
    eexists _, _, _, _. repeat split; try reflexivity. simpl. lia.
  - repeat split.
    eexists _, _, _. split; [reflexivity|]. repeat split; simpl.
    + left.
    + intros H. apply elem_of_cons in H as [H|H]; [discriminate H|].
      by apply not_elem_of_nil in H.
Qed.

(** The state of the second arrival is reached from two fresh vehicles:
    "slow" (speed 1) and "fast" (speed 5) enter the edge of length 12 in this
    order, and "fast" takes two more ticks. *)
Example fast_behind_slow_reachable :
  (let? '(g1, slow) :=
     Step (Examples.oneEdge 12 []) (Examples.fresh12 "slow" 12 1) in
   let? '(g2, fast) := Step g1 (Examples.fresh12 "fast" 12 5) in
   steps 1 g2 fast)
  = Ok (Examples.oneEdge 12 ["slow"; "fast"], Examples.onEdge12 "fast" 2 5).
Proof. reflexivity. Qed.

(** C2 (amended): a non-parked vehicle whose ledger is the single entry
    [r ≤ speed] and whose current edge resolves is parked by one [Step] with
    an empty ledger; only the queue of the current edge changes; and when
    the vehicle is at the front of that queue once it is on it, the step
    removes this vehicle: the queue is left without it, one shorter than
    with the vehicle on it, so one shorter than before the step if the
    vehicle was already queued and as long as before if this step enqueued
    it. *)
Theorem C2_arrival_parks
    (g : Graph) (v : Vehicle) (r : float) (i : nat) (e : Edge) :
  IsParked v = false →
  PathLength v = [r] →
  PrimFloat.leb r (Speed v) = true →
  GetCurrentEdge g v = Ok (Some i) →
  Edges g !! i = Some e →
  ∃ g' v' e',
    Step g v = Ok (g', v') ∧
    PathLength v' = [] ∧ IsParked v' = true ∧ CurrentEdge v' = Some i ∧
    Edges g' !! i = Some e' ∧
    (∀ j, j ≠ i → Edges g' !! j = Edges g !! j) ∧
    (head (Q (PushVehicle e v)) = Some (ID v) →
       Q (PushVehicle e v) = ID v :: Q e' ∧
       (NoDup (Q e) → ID v ∉ Q e') ∧
       (ID v ∈ Q e → length (Q e) = S (length (Q e'))) ∧
       (ID v ∉ Q e → length (Q e) = length (Q e'))).
Proof.
  intros Hp Hq Hle Hce He. unfold Step. rewrite Hp.
  rewrite (drive_enter g v i e Hce He). simpl. rewrite Hq. simpl.
  rewrite Hle. simpl.
  rewrite list_lookup_insert_eq by (by eapply lookup_lt_Some). simpl.
  change (PushVehicle e (setCurrentEdge v (Some i))) with (PushVehicle e v).
  unfold PopVehicle.
  destruct (Q (PushVehicle e v)) as [|x q'] eqn:Hpq.
  { exfalso. unfold PushVehicle in Hpq.
    destruct (decide (ID v ∈ Q e)) as [Hin|Hout].
    - rewrite Hpq in Hin. by apply not_elem_of_nil in Hin.
    - simpl in Hpq. by destruct (Q e). }
  simpl. eexists _, _, _. split; [reflexivity|].
  split; [done|]. split; [done|]. split; [done|].
  split.
  { apply setEdge_lookup with (e := PushVehicle e v).
    by apply setEdge_lookup with (e := e). }
  split.
  { intros j Hj. unfold entered.
    by rewrite !setEdge_lookup_ne. }
  simpl. intros Hh. simplify_eq. split; [done|].
  destruct (decide (ID v ∈ Q e)) as [Hin|Hout].
  - rewrite (PushVehicle_present _ _ Hin) in Hpq.
    split; [|split].
    + intros Hnd. rewrite Hpq in Hnd. by apply NoDup_cons in Hnd as [? _].
    + intros _. by rewrite Hpq.
    + intros Hn. done.
  - rewrite (PushVehicle_absent _ _ Hout) in Hpq.
    destruct (Q e) as [|y q] eqn:HQ.
    + simpl in Hpq. simplify_eq. split; [|split]; done.
    + simpl in Hpq. simplify_eq. exfalso. apply Hout. left.
Qed.

Lemma C2_arrival_parks_witness :
  ∃ g' v' e',
    Step (Examples.oneEdge 12 ["car"]) (Examples.onEdge12 "car" 2 5)
      = Ok (g', v') ∧
    PathLength v' = [] ∧ IsParked v' = true ∧ CurrentEdge v' = Some O ∧
    Edges g' !! O = Some e' ∧
    (∀ j, j ≠ O →
       Edges g' !! j = Edges (Examples.oneEdge 12 ["car"]) !! j) ∧
    (head (Q (PushVehicle (mkEdge 0 1 2 12 50 ["car"])
                (Examples.onEdge12 "car" 2 5)))
       = Some (ID (Examples.onEdge12 "car" 2 5)) →
       Q (PushVehicle (mkEdge 0 1 2 12 50 ["car"]) (Examples.onEdge12 "car" 2 5))
         = ID (Examples.onEdge12 "car" 2 5) :: Q e' ∧
       (NoDup (Q (mkEdge 0 1 2 12 50 ["car"])) →
          ID (Examples.onEdge12 "car" 2 5) ∉ Q e') ∧
       (ID (Examples.onEdge12 "car" 2 5) ∈ Q (mkEdge 0 1 2 12 50 ["car"]) →
          length (Q (mkEdge 0 1 2 12 50 ["car"])) = S (length (Q e'))) ∧
       (ID (Examples.onEdge12 "car" 2 5) ∉ Q (mkEdge 0 1 2 12 50 ["car"]) →
          length (Q (mkEdge 0 1 2 12 50 ["car"])) = length (Q e'))).
Proof.
  apply (C2_arrival_parks (Examples.oneEdge 12 ["car"])
           (Examples.onEdge12 "car" 2 5) 2 O (mkEdge 0 1 2 12 50 ["car"]));
    reflexivity.
Defined.

(** C3 (counterexample): the first tick of the vehicle on 1 → 2 → 3 with
    lengths 10 and 5 and speed 20 merges the two ledger entries, and the
    same tick puts the vehicle on the queue of its current edge: it is not
    in that queue before the step and at position 0 after it. *)
Lemma C3_counterexample :
  let g := Examples.twoEdges in
  let v := Examples.fresh123 20 in
  IsParked v = false ∧ (1 < length (PathLength v))%nat ∧
  last (PathLength v) = Some 5%float ∧
  PrimFloat.leb 5 (Speed v) = true ∧
  ∃ g' v' e e',
    Step g v = Ok (g', v') ∧ PathLength v' = [15%float] ∧
    CurrentEdge v' = Some O ∧
    Edges g !! O = Some e ∧ Edges g' !! O = Some e' ∧
    GetPosition e v = NotInQueue ∧ GetPosition e' v' = 0.
Proof.
  repeat split; [simpl; lia|].
  eexists _, _, _, _. repeat split; reflexivity.
Qed.

(** Accumulated from the front, the sum of a ledger can change in a merge:
    [1e16; 1; 1] sums to 1e16, the merged [1e16; 2] to 1e16 + 2. *)
Example sumFromFront_not_preserved :
  Ledger.sumFromFront [1e16%float; 1%float; 1%float] = 1e16%float ∧
  Ledger.sumFromFront [1e16%float; (1 + 1)%float] = 10000000000000002%float.
Proof. split; reflexivity. Qed.

Lemma sumFromBack_merge (q : list float) (a b : float) :
  Ledger.sumFromBack (q ++ [(b + a)%float]) = Ledger.sumFromBack (q ++ [a; b]).
Proof.
  unfold Ledger.sumFromBack.
  replace (q ++ [a; b]) with ((q ++ [a]) ++ [b]) by by rewrite <- app_assoc.
  by rewrite !reverse_snoc.
Qed.

(** C3 (amended): a non-parked vehicle whose ledger ends in the two entries
    [a], [b] with [b ≤ speed] and whose current edge resolves has, after one
    [Step], these two entries replaced by the single entry [b + a]: the
    ledger is one shorter and its sum, taken from the back, is unchanged.
    The vehicle is not parked and is not taken off any queue: if it was on
    the queue of its current edge, that edge is unchanged and the vehicle
    keeps its position; if it was not, the step appends it to the back; no
    other edge changes. *)
Theorem C3_merge_keeps_vehicle_queued
    (g : Graph) (v : Vehicle) (q : list float) (a b : float)
    (i : nat) (e : Edge) :
  IsParked v = false →
  PathLength v = q ++ [a; b] →
  PrimFloat.leb b (Speed v) = true →
  GetCurrentEdge g v = Ok (Some i) →
  Edges g !! i = Some e →
  ∃ g' v' e',
    Step g v = Ok (g', v') ∧
    PathLength v' = q ++ [(b + a)%float] ∧
    S (length (PathLength v')) = length (PathLength v) ∧
    Ledger.sumFromBack (PathLength v') = Ledger.sumFromBack (PathLength v) ∧
    IsParked v' = false ∧ ID v' = ID v ∧ CurrentEdge v' = Some i ∧
    Edges g' !! i = Some e' ∧
    (∀ j, j ≠ i → Edges g' !! j = Edges g !! j) ∧
    (ID v ∈ Q e → e' = e ∧ GetPosition e' v' = GetPosition e v) ∧
    (ID v ∉ Q e → Q e' = Q e ++ [ID v]).
Proof.
  intros Hp Hq Hle Hce He. unfold Step. rewrite Hp.
  rewrite (drive_enter g v i e Hce He). cbn zeta.
  change (PathLength (setCurrentEdge v (Some i))) with (PathLength v).
  change (Speed (setCurrentEdge v (Some i))) with (Speed v).
  rewrite Hq.
  replace (q ++ [a; b]) with ((q ++ [a]) ++ [b]) by by rewrite <- app_assoc.
  rewrite popBack_snoc. cbn [bind]. rewrite Hle.
  rewrite bool_decide_true by (rewrite !length_app; simpl; lia).
  cbn [andb]. rewrite popBack_snoc. cbn [bind].
  eexists _, _, _. split; [reflexivity|].
  unfold pushBack. cbn [PathLength setPathLength].
  split; [done|].
  split; [rewrite !length_app; simpl; lia|].
  split.
  { rewrite <- app_assoc. apply sumFromBack_merge. }
  split; [done|]. split; [done|]. split; [done|].
  split; [by apply entered_lookup|].
  split.
  { intros j Hj. unfold entered. by rewrite setEdge_lookup_ne. }
  change (PushVehicle e (setCurrentEdge v (Some i))) with (PushVehicle e v).
  split.
  - intros Hin. by rewrite (PushVehicle_present _ _ Hin).
  - intros Hout. by apply PushVehicle_absent.
Qed.

Lemma C3_merge_keeps_vehicle_queued_witness :
  ∃ g' v' e',
    Step Examples.twoEdges (Examples.fresh123 20) = Ok (g', v') ∧
    PathLength v' = [] ++ [(5 + 10)%float] ∧
    S (length (PathLength v')) = length (PathLength (Examples.fresh123 20)) ∧
    Ledger.sumFromBack (PathLength v')
      = Ledger.sumFromBack (PathLength (Examples.fresh123 20)) ∧
    IsParked v' = false ∧ ID v' = ID (Examples.fresh123 20) ∧
    CurrentEdge v' = Some O ∧
    Edges g' !! O = Some e' ∧
    (∀ j, j ≠ O → Edges g' !! j = Edges Examples.twoEdges !! j) ∧
    (ID (Examples.fresh123 20) ∈ Q (mkEdge 0 1 2 10 50 []) →
       e' = mkEdge 0 1 2 10 50 [] ∧
       GetPosition e' v'
         = GetPosition (mkEdge 0 1 2 10 50 []) (Examples.fresh123 20)) ∧
    (ID (Examples.fresh123 20) ∉ Q (mkEdge 0 1 2 10 50 []) →
       Q e' = Q (mkEdge 0 1 2 10 50 []) ++ [ID (Examples.fresh123 20)]).
Proof.
  apply (C3_merge_keeps_vehicle_queued Examples.twoEdges
           (Examples.fresh123 20) [] 10 5 O (mkEdge 0 1 2 10 50 []));
    reflexivity.
Defined.

(** C4 (counterexample): within ceil(15/20) = 1 tick the vehicle on
    1 → 2 → 3 with lengths 10 and 5 and speed 20 is not parked. *)
Lemma C4_counterexample :
  Examples.ceilDiv (10 + 5) 20 = 1 ∧
  ¬ ∃ n g' v',
      (Z.of_nat n ≤ Examples.ceilDiv (10 + 5) 20) ∧
      steps n Examples.twoEdges (Examples.fresh123 20) = Ok (g', v') ∧
      IsParked v' = true.
Proof.
  split; [reflexivity|].
  intros (n & g' & v' & Hn & Hs & Hp).
  change (Examples.ceilDiv (10 + 5) 20) with 1 in Hn.
  destruct n as [|[|n]]; [| |lia].
  - vm_compute in Hs. by simplify_eq.
  - vm_compute in Hs. by simplify_eq.
Qed.

(** C4 (amended): the vehicle built on 1 → 2 → 3 with lengths 10 and 5 and
    speed 20 takes the merging branch in its first [Step] (ledger [15], not
    parked), is parked with an empty ledger after exactly 2 ticks, one more
    than ceil(15/20) = 1, stays so on later ticks, and is never parked
    after fewer than 2 ticks. *)
Theorem C4_parked_after_two_ticks :
  NewVehicle "car" Examples.path123 20 Examples.twoEdges
    = Ok (Examples.fresh123 20) ∧
  Examples.ceilDiv (10 + 5) 20 = 1 ∧
  Step Examples.twoEdges (Examples.fresh123 20)
    = Ok (mkGraph [mkEdge 0 1 2 10 50 ["car"]; mkEdge 1 2 3 5 50 []],
          mkVehicle "car" 20 Examples.path123 [15%float] false (Some O)) ∧
  steps 2 Examples.twoEdges (Examples.fresh123 20)
    = Ok (Examples.twoEdges,
          mkVehicle "car" 20 Examples.path123 [] true (Some O)) ∧
  (∀ n, steps (2 + n) Examples.twoEdges (Examples.fresh123 20)
        = steps 2 Examples.twoEdges (Examples.fresh123 20)) ∧
  (∀ n g' v', (n < 2)%nat →
     steps n Examples.twoEdges (Examples.fresh123 20) = Ok (g', v') →
     IsParked v' = false).
Proof.
  split; [reflexivity|]. split; [reflexivity|]. split; [reflexivity|].
  split; [reflexivity|]. split.
  - intros n.
    change (steps (2 + n) Examples.twoEdges (Examples.fresh123 20))
      with (steps n Examples.twoEdges
              (mkVehicle "car" 20 Examples.path123 [] true (Some O))).
    induction n as [|n IH]; [reflexivity|]. exact IH.
  - intros n g' v' Hn Hs.
    destruct n as [|[|n]]; [| |lia]; vm_compute in Hs; by simplify_eq.
Qed.

(** [IsLeading] for a vehicle that is on the queue of its current edge. *)
Lemma IsLeading_on_edge (g : Graph) (v : Vehicle) (i : nat) (e : Edge) :
  CurrentEdge v = Some i → Edges g !! i = Some e → ID v ∈ Q e →
  IsLeading g v = Ok (bool_decide (GetPosition e v = 0)).
Proof.
  intros Hc He Hin. unfold IsLeading, deref. rewrite Hc, He. simpl.
  f_equal. unfold FrontVehicle, GetPosition.
  destruct (list_find _ (Q e)) as [[[|k] x]|] eqn:Hf.
  - by rewrite !bool_decide_true.
  - apply list_find_Some in Hf as (Hk & _ & _).
    destruct (Q e !! k) eqn:Hk'.
    + rewrite !bool_decide_false; [done|lia|done].
    + apply lookup_ge_None in Hk'. apply lookup_lt_Some in Hk. lia.
  - apply list_find_None in Hf. rewrite Forall_forall in Hf.
    by destruct (Hf _ Hin).
Qed.

Lemma IsLeading_nil_edge (g : Graph) (v : Vehicle) :
  CurrentEdge v = None → IsLeading g v = Panic "nil pointer dereference".
Proof. intros H. unfold IsLeading. by rewrite H. Qed.

(** C9 (the code at a failing input): a vehicle that [NewVehicle] has just
    returned has a nil [CurrentEdge], and [IsLeading] on it does not return
    [false]: reading the queue of the nil edge panics. *)
Theorem C9_IsLeading_nil_edge_panics :
  NewVehicle "car" Examples.path123 20 Examples.twoEdges
    = Ok (Examples.fresh123 20) ∧
  CurrentEdge (Examples.fresh123 20) = None ∧
  IsLeading Examples.twoEdges (Examples.fresh123 20)
    = Panic "nil pointer dereference" ∧
  IsLeading Examples.twoEdges (Examples.fresh123 20) ≠ Ok false.
Proof. repeat split; try reflexivity. discriminate. Qed.

End Ticks.

(** ** Facts about binary64 comparison *)

Section FloatFacts.

Lemma SFltb_asym (a b : spec_float) : SFltb a b = true → SFltb b a = false.
Proof.
  unfold SFltb, SFcompare.
  destruct a as [[]|[]| |[] ma ea], b as [[]|[]| |[] mb eb]; try done.
  - rewrite (Z.compare_antisym ea eb).
    destruct (ea ?= eb)%Z; simpl; try done.
    rewrite (ZC4 mb ma).
    by destruct (PosDef.Pos.compare_cont Eq ma mb).
  - rewrite (Z.compare_antisym ea eb).
    destruct (ea ?= eb)%Z; simpl; try done.
    rewrite (ZC4 mb ma).
    by destruct (PosDef.Pos.compare_cont Eq ma mb).
Qed.

Lemma ltb_asym (x y : float) :
  PrimFloat.ltb x y = true → PrimFloat.ltb y x = false.
Proof. rewrite !FloatAxioms.ltb_spec. apply SFltb_asym. Qed.

End FloatFacts.

(** ** The library's graphs *)

Section LibFacts.
Import Lib.

Lemma wf_New (d : bool) : wf (New d).
Proof.
  split; [intros s t H|intros _ s t H]; simpl in H;
    by apply not_elem_of_empty in H.
Qed.

Lemma wf_AddVertex (g : LGraph) (v : GVertex) : wf g → wf (AddVertex g v).1.
Proof.
  intros [Hwf Hsym]. unfold AddVertex.
  destruct (vertices g !! GID v) eqn:Hv; [done|]. simpl.
  split; [|done].
  intros s t Hst. destruct (Hwf s t Hst) as [Hs Ht]. simpl.
  split.
  - destruct (decide (GID v = s)) as [->|Hn];
      [by rewrite lookup_insert_eq|by rewrite lookup_insert_ne].
  - destruct (decide (GID v = t)) as [->|Hn];
      [by rewrite lookup_insert_eq|by rewrite lookup_insert_ne].
Qed.

Lemma wf_AddEdge (g : LGraph) (s t : Z) : wf g → wf (AddEdge g s t).1.
Proof.
  intros [Hwf Hsym]. unfold AddEdge.
  destruct (vertices g !! s) eqn:Hs; [|done].
  destruct (vertices g !! t) eqn:Ht; [|done].
  destruct (hasEdge g s t); [done|]. simpl.
  split.
  - intros a b Hab. simpl in *.
    destruct (directed g).
    + apply elem_of_union in Hab as [Hab|Hab]; [|by apply Hwf].
      apply elem_of_singleton in Hab. simplify_eq. by rewrite Hs, Ht.
    + apply elem_of_union in Hab as [Hab|Hab].
      { apply elem_of_singleton in Hab. simplify_eq. by rewrite Hs, Ht. }
      apply elem_of_union in Hab as [Hab|Hab]; [|by apply Hwf].
      apply elem_of_singleton in Hab. simplify_eq. by rewrite Hs, Ht.
  - simpl. intros Hd a b Hab. rewrite Hd in *.
    specialize (Hsym eq_refl).
    apply elem_of_union in Hab as [Hab|Hab].
    { apply elem_of_singleton in Hab. simplify_eq. rewrite ?elem_of_union, ?elem_of_singleton; tauto. }
    apply elem_of_union in Hab as [Hab|Hab].
    { apply elem_of_singleton in Hab. simplify_eq. rewrite ?elem_of_union, ?elem_of_singleton; tauto. }
    apply Hsym in Hab. rewrite ?elem_of_union, ?elem_of_singleton; tauto.
Qed.

Lemma Edges_sound (g : LGraph) (e : Z * Z) : e ∈ Edges g → e ∈ edges g.
Proof.
  unfold Edges. destruct (directed g).
  - by rewrite elem_of_elements.
  - rewrite list_elem_of_filter, elem_of_elements. by intros [_ ?].
Qed.

Lemma directed_AddVertex (g : LGraph) (v : GVertex) :
  directed (AddVertex g v).1 = directed g.
Proof. unfold AddVertex. by destruct (vertices g !! GID v). Qed.

Lemma directed_AddEdge (g : LGraph) (s t : Z) :
  directed (AddEdge g s t).1 = directed g.
Proof.
  unfold AddEdge.
  destruct (vertices g !! s), (vertices g !! t); try done.
  by destruct (hasEdge g s t).
Qed.

(** The source network is a directed graph of the library. *)
Lemma NewGraph_directed (vs : list Partition.JVertex) (es : list Partition.JEdge) :
  directed (Partition.NewGraph vs es) = true ∧ wf (Partition.NewGraph vs es).
Proof.
  unfold Partition.NewGraph.
  assert (H1 : ∀ g, directed g = true → wf g →
            directed (foldl (λ g vertex,
               (AddVertex g (mkGVertex (Partition.OsmID vertex)
                               (Partition.JX vertex) (Partition.JY vertex))).1)
               g vs) = true ∧
            wf (foldl (λ g vertex,
               (AddVertex g (mkGVertex (Partition.OsmID vertex)
                               (Partition.JX vertex) (Partition.JY vertex))).1)
               g vs)).
  { induction vs as [|v vs IH]; intros g Hd Hwf; [done|]. simpl.
    apply IH; [by rewrite directed_AddVertex|by apply wf_AddVertex]. }
  assert (H2 : ∀ g, directed g = true → wf g →
            directed (foldl (λ g edge,
               (AddEdge g (Partition.From edge) (Partition.To edge)).1) g es)
              = true ∧
            wf (foldl (λ g edge,
               (AddEdge g (Partition.From edge) (Partition.To edge)).1) g es)).
  { induction es as [|e es IH]; intros g Hd Hwf; [done|]. simpl.
    apply IH; [by rewrite directed_AddEdge|by apply wf_AddEdge]. }
  destruct (H1 (New true) eq_refl (wf_New true)) as [Hd Hwf].
  by apply H2.
Qed.

End LibFacts.

(** ** The bounding box *)

Section BoundingBox.
Import Lib Partition.

Lemma endpointSet_from (es : list (Z * Z)) (m : gset Z) (k : Z) :
  k ∈ foldl (λ (m : gset Z) e, {[ e.2 ]} ∪ ({[ e.1 ]} ∪ m)) m es
  ↔ k ∈ m ∨ ∃ e, e ∈ es ∧ (k = e.1 ∨ k = e.2).
Proof.
  revert m. induction es as [|e es IH]; intros m; simpl.
  - split; [by left|]. intros [?|(e & He & _)]; [done|].
    by apply not_elem_of_nil in He.
  - split.
    + intros Hk. apply IH in Hk as [Hk|(e' & He' & Hk)].
      * apply elem_of_union in Hk as [Hk|Hk].
        { apply elem_of_singleton in Hk. right. exists e. split; [left|by right]. }
        apply elem_of_union in Hk as [Hk|Hk]; [|by left].
        apply elem_of_singleton in Hk. right. exists e. split; [left|by left].
      * right. exists e'. split; [by right|done].
    + intros Hk. apply IH. destruct Hk as [Hk|(e' & He' & Hk)].
      * left. rewrite ?elem_of_union, ?elem_of_singleton; tauto.
      * apply elem_of_cons in He' as [->|He'].
        { left. rewrite ?elem_of_union, ?elem_of_singleton.
          destruct Hk as [->| ->]; tauto. }
        right. by exists e'.
Qed.

Lemma endpointSet_spec (es : list (Z * Z)) (k : Z) :
  k ∈ endpointSet es ↔ ∃ e, e ∈ es ∧ (k = e.1 ∨ k = e.2).
Proof.
  unfold endpointSet. rewrite endpointSet_from. split; [|by right].
  intros [H|H]; [|done]. by apply not_elem_of_empty in H.
Qed.

Lemma lookupAll_ok (g : LGraph) (keys : list Z) :
  (∀ k, k ∈ keys → is_Some (vertices g !! k)) →
  ∃ vs, lookupAll g keys = inr vs ∧
        ∀ v, v ∈ vs ↔ ∃ k, k ∈ keys ∧ vertices g !! k = Some v.
Proof.
  induction keys as [|k keys IH]; intros H; simpl.
  - exists []. split; [done|]. intros v. split.
    + intros Hv. by apply not_elem_of_nil in Hv.
    + intros (k & Hk & _). by apply not_elem_of_nil in Hk.
  - destruct (H k) as [w Hw]; [left|].
    destruct IH as (vs & Hvs & Hmem).
    { intros k' Hk'. apply H. by right. }
    unfold Vertex. rewrite Hw, Hvs. exists (w :: vs). split; [done|].
    intros v. split.
    + intros Hv. apply elem_of_cons in Hv as [->|Hv].
      * exists k. split; [left|done].
      * apply Hmem in Hv as (k' & Hk' & Hv). exists k'. split; [by right|done].
    + intros (k' & Hk' & Hv). apply elem_of_cons.
      apply elem_of_cons in Hk' as [->|Hk'].
      * left. congruence.
      * right. apply Hmem. by exists k'.
Qed.

Lemma lookupAll_ext (g g' : LGraph) (keys : list Z) :
  (∀ k, k ∈ keys → vertices g' !! k = vertices g !! k) →
  lookupAll g' keys = lookupAll g keys.
Proof.
  induction keys as [|k keys IH]; intros H; [done|]. simpl.
  unfold Vertex. rewrite (H k) by left.
  rewrite IH; [done|]. intros k' Hk'. apply H. by right.
Qed.

Lemma scan_keeps_botX (vs : list GVertex) (acc : float * float * float * float) :
  (∀ v, v ∈ vs → PrimFloat.ltb (X v) (accBotX acc) = false) →
  accBotX (foldl scanStep acc vs) = accBotX acc.
Proof.
  revert acc. induction vs as [|v vs IH]; intros acc H; [done|]. simpl.
  assert (Hstep : accBotX (scanStep acc v) = accBotX acc).
  { destruct acc as [[[bx by_] tx] ty]. unfold scanStep, accBotX in *. simpl in *.
    by rewrite (H v) by left. }
  rewrite IH; [done|]. intros v' Hv'. rewrite Hstep. apply H. by right.
Qed.

Lemma scan_keeps_botY (vs : list GVertex) (acc : float * float * float * float) :
  (∀ v, v ∈ vs → PrimFloat.ltb (Y v) (accBotY acc) = false) →
  accBotY (foldl scanStep acc vs) = accBotY acc.
Proof.
  revert acc. induction vs as [|v vs IH]; intros acc H; [done|]. simpl.
  assert (Hstep : accBotY (scanStep acc v) = accBotY acc).
  { destruct acc as [[[bx by_] tx] ty]. unfold scanStep, accBotY in *. simpl in *.
    by rewrite (H v) by left. }
  rewrite IH; [done|]. intros v' Hv'. rewrite Hstep. apply H. by right.
Qed.

Lemma scan_keeps_topX (vs : list GVertex) (acc : float * float * float * float) :
  (∀ v, v ∈ vs → PrimFloat.ltb (accTopX acc) (X v) = false) →
  accTopX (foldl scanStep acc vs) = accTopX acc.
Proof.
  revert acc. induction vs as [|v vs IH]; intros acc H; [done|]. simpl.
  assert (Hstep : accTopX (scanStep acc v) = accTopX acc).
  { destruct acc as [[[bx by_] tx] ty]. unfold scanStep, accTopX in *. simpl in *.
    by rewrite (H v) by left. }
  rewrite IH; [done|]. intros v' Hv'. rewrite Hstep. apply H. by right.
Qed.

Lemma scan_keeps_topY (vs : list GVertex) (acc : float * float * float * float) :
  (∀ v, v ∈ vs → PrimFloat.ltb (accTopY acc) (Y v) = false) →
  accTopY (foldl scanStep acc vs) = accTopY acc.
Proof.
  revert acc. induction vs as [|v vs IH]; intros acc H; [done|]. simpl.
  assert (Hstep : accTopY (scanStep acc v) = accTopY acc).
  { destruct acc as [[[bx by_] tx] ty]. unfold scanStep, accTopY in *. simpl in *.
    by rewrite (H v) by left. }
  rewrite IH; [done|]. intros v' Hv'. rewrite Hstep. apply H. by right.
Qed.

Lemma scanBox_acc (vs : list GVertex) :
  scanBox vs =
    (mkPoint (accBotX (foldl scanStep seedBox vs))
             (accBotY (foldl scanStep seedBox vs)),
     mkPoint (accTopX (foldl scanStep seedBox vs))
             (accTopY (foldl scanStep seedBox vs))).
Proof.
  unfold scanBox. by destruct (foldl scanStep seedBox vs) as [[[? ?] ?] ?].
Qed.

(** For a graph of the library the vertices are read without error, and
    they are exactly the vertices stored under an endpoint of an edge. *)
Lemma GetVertices_ok (ord : list Z → list Z) (g : LGraph) :
  (∀ l, ord l ≡ₚ l) → wf g →
  ∃ vs, GetVertices ord g = inr vs ∧
    ∀ v, v ∈ vs ↔
      ∃ k, k ∈ endpointSet (Edges g) ∧ vertices g !! k = Some v.
Proof.
  intros Hord [Hwf _]. unfold GetVertices.
  destruct (lookupAll_ok g (ord (elements (endpointSet (Edges g)))))
    as (vs & Hvs & Hmem).
  - intros k Hk. rewrite Hord in Hk. apply elem_of_elements in Hk.
    apply endpointSet_spec in Hk as ([s t] & He & Hk).
    apply Edges_sound in He. destruct (Hwf s t He) as [Hs Ht].
    by destruct Hk as [->| ->].
  - exists vs. split; [done|]. intros v. rewrite Hmem.
    split; intros (k & Hk & Hv); exists k; split; try done.
    + rewrite Hord in Hk. by apply elem_of_elements in Hk.
    + rewrite Hord. by apply elem_of_elements.
Qed.

(** C5: the bounding box is the scan, seeded with (100, 100) for the
    minimum and (0, 0) for the maximum, of exactly the vertices stored under
    an endpoint of some edge; storing or replacing a vertex that no edge
    touches leaves the result unchanged; and when every x (y) coordinate of
    the graph exceeds 100 the minimum x (y) stays at the seed 100, when every
    x (y) coordinate is negative the maximum x (y) stays at the seed 0. *)
Theorem C5_bounding_box_seeds (ord : list Z → list Z) (g : LGraph) :
  (∀ l, ord l ≡ₚ l) → wf g →
  ∃ vs,
    GetVertices ord g = inr vs ∧
    GetTopRightBottomLeftVertices ord g = scanBox vs ∧
    (∀ v, v ∈ vs ↔
       ∃ k s t, vertices g !! k = Some v ∧ (s, t) ∈ edges g ∧ (k = s ∨ k = t)) ∧
    (∀ w, (∀ s t, (s, t) ∈ edges g → GID w ≠ s ∧ GID w ≠ t) →
       GetTopRightBottomLeftVertices ord (putVertex g w)
         = GetTopRightBottomLeftVertices ord g) ∧
    scanBox [] = (mkPoint 100 100, mkPoint 0 0) ∧
    ((∀ k v, vertices g !! k = Some v → PrimFloat.ltb 100 (X v) = true) →
       PX (GetTopRightBottomLeftVertices ord g).1 = 100%float) ∧
    ((∀ k v, vertices g !! k = Some v → PrimFloat.ltb 100 (Y v) = true) →
       PY (GetTopRightBottomLeftVertices ord g).1 = 100%float) ∧
    ((∀ k v, vertices g !! k = Some v → PrimFloat.ltb (X v) 0 = true) →
       PX (GetTopRightBottomLeftVertices ord g).2 = 0%float) ∧
    ((∀ k v, vertices g !! k = Some v → PrimFloat.ltb (Y v) 0 = true) →
       PY (GetTopRightBottomLeftVertices ord g).2 = 0%float).
Proof.
  intros Hord Hwf.
  destruct (GetVertices_ok ord g Hord Hwf) as (vs & Hvs & Hmem).
  exists vs. split; [done|].
  assert (Hbox : GetTopRightBottomLeftVertices ord g = scanBox vs).
  { unfold GetTopRightBottomLeftVertices. by rewrite Hvs. }
  split; [done|]. split.
  { intros v. rewrite Hmem. split.
    - intros (k & Hk & Hv). apply endpointSet_spec in Hk as ([s t] & He & Hk).
      exists k, s, t. split; [done|]. split; [by apply Edges_sound|done].
    - intros (k & s & t & Hv & He & Hk). exists k. split; [|done].
      apply endpointSet_spec.
      assert (Hin : (s, t) ∈ Edges g ∨ (t, s) ∈ Edges g).
      { unfold Edges. destruct (directed g) eqn:Hd.
        - left. by apply elem_of_elements.
        - destruct (decide (s ≤ t)).
          + left. apply list_elem_of_filter. split; [done|].
            by apply elem_of_elements.
          + right. apply list_elem_of_filter. split; [simpl; lia|].
            apply elem_of_elements. by apply (proj2 Hwf Hd). }
      destruct Hin as [Hin|Hin].
      + exists (s, t). split; [done|]. simpl. done.
      + exists (t, s). split; [done|]. simpl. destruct Hk; auto. }
  split.
  { intros w Hw. unfold GetTopRightBottomLeftVertices, GetVertices.
    change (Edges (putVertex g w)) with (Edges g).
    rewrite (lookupAll_ext g (putVertex g w)); [done|].
    intros k Hk. rewrite Hord in Hk. apply elem_of_elements in Hk.
    apply endpointSet_spec in Hk as ([s t] & He & Hk).
    apply Edges_sound in He. destruct (Hw s t He) as [Hs Ht].
    simpl. apply lookup_insert_ne. destruct Hk as [->| ->]; done. }
  split; [reflexivity|].
  rewrite Hbox, scanBox_acc. simpl.
  assert (Hin : ∀ v, v ∈ vs → ∃ k, vertices g !! k = Some v).
  { intros v Hv. apply Hmem in Hv as (k & _ & Hv). by exists k. }
  split; [|split; [|split]]; intros Hall.
  - apply (scan_keeps_botX vs seedBox). intros v Hv.
    destruct (Hin v Hv) as [k Hk]. apply ltb_asym. by apply (Hall k).
  - apply (scan_keeps_botY vs seedBox). intros v Hv.
    destruct (Hin v Hv) as [k Hk]. apply ltb_asym. by apply (Hall k).
  - apply (scan_keeps_topX vs seedBox). intros v Hv.
    destruct (Hin v Hv) as [k Hk]. apply ltb_asym. by apply (Hall k).
  - apply (scan_keeps_topY vs seedBox). intros v Hv.
    destruct (Hin v Hv) as [k Hk]. apply ltb_asym. by apply (Hall k).
Qed.

Lemma wf_above100 : wf Examples.above100.
Proof.
  unfold Examples.above100.
  apply wf_AddEdge, wf_AddVertex, wf_AddVertex, wf_New.
Qed.

Example above100_box :
  GetTopRightBottomLeftVertices Examples.asListed Examples.above100
  = (mkPoint 100 100, mkPoint 150 300).
Proof. vm_compute. reflexivity. Qed.

Lemma C5_bounding_box_seeds_witness :
  ∃ vs,
    GetVertices Examples.asListed Examples.above100 = inr vs ∧
    GetTopRightBottomLeftVertices Examples.asListed Examples.above100
      = scanBox vs ∧
    (∀ v, v ∈ vs ↔
       ∃ k s t, vertices Examples.above100 !! k = Some v ∧
                (s, t) ∈ edges Examples.above100 ∧ (k = s ∨ k = t)) ∧
    (∀ w, (∀ s t, (s, t) ∈ edges Examples.above100 → GID w ≠ s ∧ GID w ≠ t) →
       GetTopRightBottomLeftVertices Examples.asListed
         (putVertex Examples.above100 w)
         = GetTopRightBottomLeftVertices Examples.asListed Examples.above100) ∧
    scanBox [] = (mkPoint 100 100, mkPoint 0 0) ∧
    ((∀ k v, vertices Examples.above100 !! k = Some v →
        PrimFloat.ltb 100 (X v) = true) →
       PX (GetTopRightBottomLeftVertices Examples.asListed Examples.above100).1
         = 100%float) ∧
    ((∀ k v, vertices Examples.above100 !! k = Some v →
        PrimFloat.ltb 100 (Y v) = true) →
       PY (GetTopRightBottomLeftVertices Examples.asListed Examples.above100).1
         = 100%float) ∧
    ((∀ k v, vertices Examples.above100 !! k = Some v →
        PrimFloat.ltb (X v) 0 = true) →
       PX (GetTopRightBottomLeftVertices Examples.asListed Examples.above100).2
         = 0%float) ∧
    ((∀ k v, vertices Examples.above100 !! k = Some v →
        PrimFloat.ltb (Y v) 0 = true) →
       PY (GetTopRightBottomLeftVertices Examples.asListed Examples.above100).2
         = 0%float).
Proof.
  apply (C5_bounding_box_seeds Examples.asListed Examples.above100).
  - intros l. reflexivity.
  - exact wf_above100.
Defined.

End BoundingBox.

(** ** The subgraph of a rect *)

Section Subgraph.
Import Lib Partition.

Lemma hasID_spec (rect : Rect) (k : Z) :
  hasID rect k = true ↔ ∃ v, v ∈ RVertices rect ∧ GID v = k.
Proof.
  unfold hasID. rewrite existsb_exists. split.
  - intros (v & Hin & Hv). exists v. split; [by apply list_elem_of_In|].
    by apply bool_decide_eq_true in Hv.
  - intros (v & Hin & Hv). exists v. split; [by apply list_elem_of_In|].
    by apply bool_decide_eq_true.
Qed.

Lemma InRect_hasID (rect : Rect) (v : GVertex) :
  InRect rect v = hasID rect (GID v).
Proof. reflexivity. Qed.

Lemma addVertices_spec (vs : list GVertex) (g : LGraph) :
  directed (foldl (λ g vertex, (AddVertex g vertex).1) g vs) = directed g ∧
  edges (foldl (λ g vertex, (AddVertex g vertex).1) g vs) = edges g ∧
  ∀ k, is_Some (vertices (foldl (λ g vertex, (AddVertex g vertex).1) g vs) !! k)
       ↔ is_Some (vertices g !! k) ∨ ∃ v, v ∈ vs ∧ GID v = k.
Proof.
  revert g. induction vs as [|v vs IH]; intros g; simpl.
  - split; [done|]. split; [done|]. intros k. split; [by left|].
    intros [?|(v & Hv & _)]; [done|]. by apply not_elem_of_nil in Hv.
  - destruct (IH (AddVertex g v).1) as (Hd & He & Hk).
    assert (Hstep : directed (AddVertex g v).1 = directed g ∧
                    edges (AddVertex g v).1 = edges g ∧
                    ∀ k, is_Some (vertices (AddVertex g v).1 !! k)
                         ↔ is_Some (vertices g !! k) ∨ GID v = k).
    { unfold AddVertex. destruct (vertices g !! GID v) eqn:Hv; simpl.
      - split; [done|]. split; [done|]. intros k. split; [by left|].
        intros [?|<-]; [done|]. by rewrite Hv.
      - split; [done|]. split; [done|]. intros k.
        destruct (decide (GID v = k)) as [<-|Hne].
        + rewrite lookup_insert_eq. split; [by right|done].
        + rewrite lookup_insert_ne by done. split; [by left|].
          by intros [?|?]. }
    destruct Hstep as (Hd' & He' & Hk').
    split; [congruence|]. split; [congruence|].
    intros k. split.
    + intros H. apply Hk in H as [H|(w & Hw & Hwk)].
      * apply Hk' in H as [H|H]; [by left|].
        right. exists v. split; [left|done].
      * right. exists w. split; [by right|done].
    + intros H. apply Hk. destruct H as [H|(w & Hw & Hwk)].
      * left. apply Hk'. by left.
      * apply elem_of_cons in Hw as [->|Hw].
        { left. apply Hk'. by right. }
        right. by exists w.
Qed.

Lemma rectGraph_vertices (rect : Rect) :
  rectGraph rect
    (foldl (λ g vertex, (AddVertex g vertex).1) (New false) (RVertices rect)).
Proof.
  destruct (addVertices_spec (RVertices rect) (New false)) as (Hd & He & Hk).
  split; [by rewrite Hd|]. split.
  - intros k. rewrite Hk, hasID_spec. simpl. rewrite lookup_empty. split.
    + intros [H|H]; [by destruct H|done].
    + by right.
  - intros a b. rewrite He. simpl. intros H. by apply not_elem_of_empty in H.
Qed.

Lemma hasEdge_rectGraph (rect : Rect) (g : LGraph) (s t : Z) :
  rectGraph rect g → hasEdge g s t = true ↔ (s, t) ∈ edges g.
Proof.
  intros (Hd & _ & Hsym). unfold hasEdge. rewrite Hd. simpl.
  rewrite orb_true_iff, !bool_decide_eq_true. split; [|by left].
  intros [?|?]; [done|]. by apply Hsym.
Qed.

Lemma addRectEdge_spec (rect : Rect) (g : LGraph) (e : RawEdge) :
  rectGraph rect g →
  rectGraph rect (addRectEdge rect g e) ∧
  vertices (addRectEdge rect g e) = vertices g ∧
  ∀ a b, (a, b) ∈ edges (addRectEdge rect g e) ↔
    (a, b) ∈ edges g ∨
    (hasID rect a = true ∧ hasID rect b = true ∧
     (mkRawEdge a b = e ∨ mkRawEdge b a = e)).
Proof.
  intros HJ. pose proof HJ as (Hd & Hdom & Hsym).
  destruct e as [src dst]. unfold addRectEdge. simpl.
  destruct (hasID rect src) eqn:Hsrc, (hasID rect dst) eqn:Hdst; simpl;
    try (split; [done|]; split; [done|]; intros a b; split; [by left|];
         intros [?|(Ha & Hb & [?|?])]; [done|simplify_eq; congruence..]).
  unfold AddEdge.
  destruct (proj2 (Hdom src) Hsrc) as [vs Hvs].
  destruct (proj2 (Hdom dst) Hdst) as [vt Hvt].
  rewrite Hvs, Hvt.
  destruct (hasEdge g src dst) eqn:Hhas; simpl.
  - split; [done|]. split; [done|]. intros a b. split; [by left|].
    apply (hasEdge_rectGraph rect g src dst HJ) in Hhas.
    intros [?|(Ha & Hb & [?|?])]; [done| |]; simplify_eq; [done|by apply Hsym].
  - rewrite Hd. split; [|split; [done|]].
    + split; [done|]. split; [done|]. simpl. intros a b Hab.
      apply elem_of_union in Hab as [Hab|Hab].
      { apply elem_of_singleton in Hab. simplify_eq. rewrite ?elem_of_union, ?elem_of_singleton; tauto. }
      apply elem_of_union in Hab as [Hab|Hab].
      { apply elem_of_singleton in Hab. simplify_eq. rewrite ?elem_of_union, ?elem_of_singleton; tauto. }
      apply Hsym in Hab. rewrite ?elem_of_union, ?elem_of_singleton; tauto.
    + simpl. intros a b. split.
      * intros Hab. apply elem_of_union in Hab as [Hab|Hab].
        { apply elem_of_singleton in Hab. simplify_eq. right. auto. }
        apply elem_of_union in Hab as [Hab|Hab]; [|by left].
        apply elem_of_singleton in Hab. simplify_eq. right. auto.
      * rewrite !elem_of_union, !elem_of_singleton.
        intros [?|(Ha & Hb & [?|?])]; simplify_eq; tauto.
Qed.

Lemma addRectEdges_spec (rect : Rect) (es : list RawEdge) (g : LGraph) :
  rectGraph rect g →
  rectGraph rect (foldl (addRectEdge rect) g es) ∧
  vertices (foldl (addRectEdge rect) g es) = vertices g ∧
  ∀ a b, (a, b) ∈ edges (foldl (addRectEdge rect) g es) ↔
    (a, b) ∈ edges g ∨
    (hasID rect a = true ∧ hasID rect b = true ∧
     (mkRawEdge a b ∈ es ∨ mkRawEdge b a ∈ es)).
Proof.
  revert g. induction es as [|e es IH]; intros g HJ; simpl.
  - split; [done|]. split; [done|]. intros a b. split; [by left|].
    intros [?|(_ & _ & [H|H])]; [done|by apply not_elem_of_nil in H..].
  - destruct (addRectEdge_spec rect g e HJ) as (HJ1 & Hv1 & He1).
    destruct (IH _ HJ1) as (HJ2 & Hv2 & He2).
    split; [done|]. split; [congruence|]. intros a b. split.
    + intros H. apply He2 in H as [H|(Ha & Hb & H)].
      * apply He1 in H as [H|(Ha & Hb & H)]; [by left|].
        right. split; [done|]. split; [done|].
        destruct H as [<-|<-]; [left|right]; left.
      * right. split; [done|]. split; [done|].
        destruct H; [left|right]; by right.
    + intros H. apply He2. destruct H as [H|(Ha & Hb & H)].
      * left. apply He1. by left.
      * destruct H as [H|H]; apply elem_of_cons in H as [H|H].
        -- left. apply He1. right. auto.
        -- right. auto.
        -- left. apply He1. right. auto.
        -- right. auto.
Qed.

(** The graph of a rect: an undirected graph on the rect's identifiers whose
    edges are the input edges, in either orientation, between two of
    them. *)
Lemma GraphFromRect_spec (es : list RawEdge) (rect : Rect) :
  rectGraph rect (GraphFromRect es rect) ∧
  ∀ a b, (a, b) ∈ edges (GraphFromRect es rect) ↔
    hasID rect a = true ∧ hasID rect b = true ∧
    (mkRawEdge a b ∈ es ∨ mkRawEdge b a ∈ es).
Proof.
  unfold GraphFromRect.
  pose proof (rectGraph_vertices rect) as HJ0.
  destruct (addRectEdges_spec rect es _ HJ0) as (HJ & _ & He).
  split; [done|]. intros a b. rewrite He. split; [|by right].
  intros [H|H]; [|done].
  destruct (addVertices_spec (RVertices rect) (New false)) as (_ & He0 & _).
  rewrite He0 in H. simpl in H. by apply not_elem_of_empty in H.
Qed.

(** C6: whatever the input edges and the rect, an edge of the graph that
    [GraphFromRect] returns has both endpoints among the identifiers of
    [rect.Vertices], so [InRect] holds of any vertex with the identifier of
    an endpoint, and it stems from an input edge; an input edge with an
    endpoint outside the rect, in particular one with exactly one endpoint
    inside, is not an edge of the result, in either orientation. *)
Theorem C6_subgraph_edges_inside_rect (es : list RawEdge) (rect : Rect) :
  (∀ s t, hasEdge (GraphFromRect es rect) s t = true →
     (∃ v, v ∈ RVertices rect ∧ GID v = s) ∧
     (∃ v, v ∈ RVertices rect ∧ GID v = t) ∧
     (∀ v, GID v = s ∨ GID v = t → InRect rect v = true) ∧
     (mkRawEdge s t ∈ es ∨ mkRawEdge t s ∈ es)) ∧
  (∀ e, e ∈ es →
     hasID rect (Source e) && hasID rect (Target e) = false →
     hasEdge (GraphFromRect es rect) (Source e) (Target e) = false ∧
     hasEdge (GraphFromRect es rect) (Target e) (Source e) = false) ∧
  (∀ e, e ∈ es →
     xorb (hasID rect (Source e)) (hasID rect (Target e)) = true →
     hasEdge (GraphFromRect es rect) (Source e) (Target e) = false).
Proof.
  destruct (GraphFromRect_spec es rect) as (HJ & Hedges).
  assert (Hin : ∀ s t, hasEdge (GraphFromRect es rect) s t = true →
            hasID rect s = true ∧ hasID rect t = true ∧
            (mkRawEdge s t ∈ es ∨ mkRawEdge t s ∈ es)).
  { intros s t H. apply (hasEdge_rectGraph rect _ s t HJ) in H.
    by apply Hedges. }
  assert (Hout : ∀ s t, hasID rect s && hasID rect t = false →
            hasEdge (GraphFromRect es rect) s t = false).
  { intros s t H.
    destruct (hasEdge (GraphFromRect es rect) s t) eqn:Hh; [|done].
    destruct (Hin s t Hh) as (Hs & Ht & _). by rewrite Hs, Ht in H. }
  split; [|split].
  - intros s t H. destruct (Hin s t H) as (Hs & Ht & Hes).
    split; [by apply hasID_spec|]. split; [by apply hasID_spec|].
    split; [|done].
    intros v [Hv|Hv]; rewrite InRect_hasID, Hv; done.
  - intros e _ H. split; apply Hout; [done|].
    by rewrite andb_comm.
  - intros e _ H. apply Hout.
    by destruct (hasID rect (Source e)), (hasID rect (Target e)).
Qed.

(** A rect with the vertices 1 and 2 and the edges 1 → 2, 2 → 3, 2 → 1:
    the edge 2 → 3 leaves the rect and is dropped, 2 → 1 repeats 1 → 2. *)
Example GraphFromRect_drops_crossing_edge :
  let rect := mkRect (mkPoint 1 1) (mkPoint 0 0)
                [mkGVertex 1 0 0; mkGVertex 2 1 1] in
  let G := GraphFromRect [mkRawEdge 1 2; mkRawEdge 2 3; mkRawEdge 2 1] rect in
  hasEdge G 1 2 = true ∧ hasEdge G 2 1 = true ∧
  hasEdge G 2 3 = false ∧ hasEdge G 3 2 = false ∧
  G = GraphFromRect [mkRawEdge 1 2] rect.
Proof. vm_compute. repeat split. Qed.

(** C10: while [NewGraph] builds a directed graph, the graph that
    [GraphFromRect] returns is undirected: it has an
    edge from [s] to [t] iff it has one from [t] to [s], namely iff both are
    identifiers of the rect and the input holds (s, t) or (t, s); an input
    edge whose reverse (or which itself) is already an edge of the graph is
    ignored; so the result does not depend on the orientation of the input
    edges. *)
Theorem C10_subgraph_is_undirected (es : list RawEdge) (rect : Rect) :
  (∀ vs js, directed (NewGraph vs js) = true) ∧
  directed (GraphFromRect es rect) = false ∧
  (∀ s t, hasEdge (GraphFromRect es rect) s t
          = hasEdge (GraphFromRect es rect) t s) ∧
  (∀ s t, (s, t) ∈ edges (GraphFromRect es rect)
          ↔ (t, s) ∈ edges (GraphFromRect es rect)) ∧
  (∀ s t, hasEdge (GraphFromRect es rect) s t = true ↔
     hasID rect s = true ∧ hasID rect t = true ∧
     (mkRawEdge s t ∈ es ∨ mkRawEdge t s ∈ es)) ∧
  (∀ s t, hasEdge (GraphFromRect es rect) s t = true →
     GraphFromRect (es ++ [mkRawEdge t s]) rect = GraphFromRect es rect ∧
     GraphFromRect (es ++ [mkRawEdge s t]) rect = GraphFromRect es rect) ∧
  (∀ es', (∀ s t, mkRawEdge s t ∈ es' ↔ mkRawEdge t s ∈ es) →
     edges (GraphFromRect es' rect) = edges (GraphFromRect es rect)).
Proof.
  destruct (GraphFromRect_spec es rect) as (HJ & Hedges).
  pose proof HJ as (Hd & Hdom & Hsym).
  assert (Hhas : ∀ s t, hasEdge (GraphFromRect es rect) s t = true ↔
            hasID rect s = true ∧ hasID rect t = true ∧
            (mkRawEdge s t ∈ es ∨ mkRawEdge t s ∈ es)).
  { intros s t. rewrite (hasEdge_rectGraph rect _ s t HJ). apply Hedges. }
  assert (Hcomm : ∀ s t, hasEdge (GraphFromRect es rect) s t
                         = hasEdge (GraphFromRect es rect) t s).
  { intros s t. apply eq_true_iff_eq. rewrite !Hhas. tauto. }
  assert (Hdup : ∀ s t, hasEdge (GraphFromRect es rect) s t = true →
            GraphFromRect (es ++ [mkRawEdge s t]) rect = GraphFromRect es rect).
  { intros s t H. unfold GraphFromRect. rewrite foldl_app. simpl.
    fold (GraphFromRect es rect).
    unfold addRectEdge. simpl.
    destruct (proj1 (Hhas s t) H) as (Hs & Ht & _). rewrite Hs, Ht. simpl.
    unfold AddEdge.
    destruct (proj2 (Hdom s) Hs) as [vs ->].
    destruct (proj2 (Hdom t) Ht) as [vt ->].
    by rewrite H. }
  split; [intros vs js; apply NewGraph_directed|].
  split; [done|]. split; [done|]. split.
  { intros s t. split; apply Hsym. }
  split; [done|]. split.
  { intros s t H. split; apply Hdup; [by rewrite Hcomm|done]. }
  intros es' Hrev.
  destruct (GraphFromRect_spec es' rect) as (_ & Hedges').
  apply set_eq. intros [a b]. rewrite Hedges', Hedges, !Hrev. tauto.
Qed.

End Subgraph.

(** ** The strips *)

Section Strips.
Import Lib Partition.

(** Adding a zero multiple of a finite number changes nothing, except that
    it turns a negative zero into the positive one. *)
Lemma add_mul_zero (x w : float) :
  F.finite w = true → F.negzero x = false →
  (x + w * F.of_int 0)%float = x.
Proof.
  unfold F.finite, F.negzero. intros Hw Hx.
  apply Prim2SF_inj.
  rewrite FloatAxioms.add_spec, FloatAxioms.mul_spec.
  change (Prim2SF (F.of_int 0)) with (S754_zero false).
  unfold SF64add, SF64mul.
  destruct (Prim2SF w) as [sw| | |sw mw ew]; try done;
    destruct (Prim2SF x) as [[]|[]| |sx mx ex]; try done;
    by destruct sw.
Qed.

(** The strips of a graph of the library: [n] rects, rect [i] being the
    strip computed for index [i]; consecutive strips share their boundary
    and every strip has the y-range of the bounding box. *)
Lemma DivideGraphsIntoRects_strips (ord1 ord2 : list Z → list Z) (n : Z)
    (g : LGraph) :
  (∀ l, ord2 l ≡ₚ l) → wf g → 0 ≤ n →
  ∃ vs rects,
    GetVertices ord2 g = inr vs ∧
    DivideGraphsIntoRects ord1 ord2 n g = Ok (inr rects) ∧
    length rects = Z.to_nat n ∧
    (∀ i : nat, Z.of_nat i < n →
       rects !! i =
         Some (strip n (GetTopRightBottomLeftVertices ord1 g).1
                 (GetTopRightBottomLeftVertices ord1 g).2 vs (Z.of_nat i))) ∧
    (∀ (i : nat) r r', rects !! i = Some r → rects !! S i = Some r' →
       PX (TopRight r) = PX (BotLeft r')) ∧
    (∀ r, r ∈ rects →
       PY (BotLeft r) = PY (GetTopRightBottomLeftVertices ord1 g).1 ∧
       PY (TopRight r) = PY (GetTopRightBottomLeftVertices ord1 g).2).
Proof.
  intros Hord Hwf Hn.
  destruct (GetVertices_ok ord2 g Hord Hwf) as (vs & Hvs & _).
  unfold DivideGraphsIntoRects.
  destruct (GetTopRightBottomLeftVertices ord1 g) as [bot top] eqn:Hbox.
  rewrite Hvs. rewrite decide_False by lia.
  exists vs, (strip n bot top vs <$> seqZ 0 n).
  split; [done|]. split; [done|].
  split; [by rewrite length_fmap, length_seqZ|].
  assert (Hlook : ∀ (i : nat) r,
            (strip n bot top vs <$> seqZ 0 n) !! i = Some r →
            r = strip n bot top vs (Z.of_nat i)).
  { intros i r Hr. rewrite list_lookup_fmap in Hr.
    destruct (seqZ 0 n !! i) as [k|] eqn:Hk; [|done].
    apply lookup_seqZ in Hk as [-> _]. simpl in Hr. by simplify_eq. }
  split; [|split].
  - intros i Hi. rewrite list_lookup_fmap, lookup_seqZ_lt by done. done.
  - intros i r r' Hr Hr'. apply Hlook in Hr, Hr'. subst r r'. simpl.
    by replace (Z.of_nat i + 1) with (Z.of_nat (S i)) by lia.
  - intros r Hr. apply list_elem_of_lookup in Hr as [i Hr].
    apply Hlook in Hr. by subst r.
Qed.

(** The first strip starts at the left bound of the box whenever the strip
    width is a number and the left bound is not a negative zero. *)
Lemma first_strip_bottom (n : Z) (bot top : Point) (vs : list GVertex) :
  F.finite ((PX top - PX bot) / F.of_int n)%float = true →
  F.negzero (PX bot) = false →
  PX (BotLeft (strip n bot top vs 0)) = PX bot.
Proof. intros Hw Hb. simpl. by apply add_mul_zero. Qed.

(** C7 (the code at a failing input): for the graph with the single edge
    between (0, 0) and (1, 1) the bounding box spans x from 0 to 1, and
    [DivideGraphsIntoRects] with n = 49 returns 49 rects whose last one has
    the top x-bound 0 + (1/49)·49, which is 1 − 2^-53 in binary64; so the
    strips do not span up to the top of the box, and the vertex at x = 1
    belongs to none of the rects. *)
Theorem C7_last_strip_stops_short :
  GetTopRightBottomLeftVertices Examples.asListed Examples.unitSpan
    = (mkPoint 0 0, mkPoint 1 1) ∧
  ∃ rects last,
    DivideGraphsIntoRects Examples.asListed Examples.asListed 49
      Examples.unitSpan = Ok (inr rects) ∧
    length rects = 49%nat ∧
    rects !! 48%nat = Some last ∧
    PX (TopRight last) = (0 + (1 - 0) / F.of_int 49 * F.of_int 49)%float ∧
    PX (TopRight last) = 0x1.fffffffffffffp-1%float ∧
    PrimFloat.ltb (PX (TopRight last)) 1 = true ∧
    PX (TopRight last) ≠ 1%float ∧
    Forall (λ r, InRect r (mkGVertex 2 1 1) = false) rects ∧
    Forall (λ r, mkGVertex 2 1 1 ∉ RVertices r) rects.
Proof.
  split; [vm_compute; reflexivity|].
  eexists _, _. split; [vm_compute; reflexivity|].
  split; [reflexivity|]. split; [reflexivity|].
  split; [vm_compute; reflexivity|]. split; [vm_compute; reflexivity|].
  split; [vm_compute; reflexivity|].
  split.
  { intros H. apply (f_equal (λ x, PrimFloat.eqb x 1)) in H.
    vm_compute in H. discriminate. }
  split.
  - apply Forall_forall. intros r Hr.
    apply list_elem_of_lookup in Hr as [i Hi].
    assert (i < 49)%nat as Hlt by (apply lookup_lt_Some in Hi; exact Hi).
    do 49 (destruct i as [|i]; [vm_compute in Hi; by simplify_eq|]). lia.
  - apply Forall_forall. intros r Hr.
    apply list_elem_of_lookup in Hr as [i Hi].
    assert (i < 49)%nat as Hlt by (apply lookup_lt_Some in Hi; exact Hi).
    do 49 (destruct i as [|i];
           [vm_compute in Hi; simplify_eq; simpl; intros Hin;
            repeat (apply elem_of_cons in Hin as [Hin|Hin];
                    [discriminate Hin|]);
            by apply not_elem_of_nil in Hin|]).
    lia.
Qed.

End Strips.

(** ** Every tick of a vehicle *)

Section EveryTick.
Import Streets.

Lemma GetCurrentEdge_valid (g : Graph) (v : Vehicle) (i : nat) :
  GetCurrentEdge g v = Ok (Some i) → ∃ e, Edges g !! i = Some e.
Proof.
  unfold GetCurrentEdge. destruct (IsParked v); [done|].
  destruct (Vertices (VPath v) !! firstNonZero (PathLength v)); [|done].
  destruct (Vertices (VPath v) !! S (firstNonZero (PathLength v))); [|done].
  destruct (GetCorrespondingEdge g _ _) as [[j e]|] eqn:Hf; [|done].
  intros H. simplify_eq. unfold GetCorrespondingEdge in Hf.
  apply list_find_Some in Hf as (? & _). by exists e.
Qed.

Lemma popBack_inv (q : list float) (x : float) (q' : list float) :
  popBack q = Ok (x, q') → q = q' ++ [x].
Proof.
  unfold popBack. destruct (reverse q) as [|y r] eqn:Hr; [done|].
  intros H. simplify_eq.
  rewrite <- (reverse_involutive q), Hr. by rewrite reverse_cons.
Qed.

Lemma PopVehicle_entered (e : Edge) (v : Vehicle) :
  ∃ x e'', PopVehicle (PushVehicle e v) = Ok (x, e'') ∧
    Q (PushVehicle e v) = x :: Q e'' ∧
    EID e'' = EID e ∧ FromVertex e'' = FromVertex e ∧
    ToVertex e'' = ToVertex e ∧ Length e'' = Length e ∧
    MaxSpeed e'' = MaxSpeed e.
Proof.
  unfold PopVehicle.
  destruct (Q (PushVehicle e v)) as [|x q'] eqn:Hpq.
  - exfalso. unfold PushVehicle in Hpq.
    destruct (decide (ID v ∈ Q e)) as [Hin|Hout].
    + rewrite Hpq in Hin. by apply not_elem_of_nil in Hin.
    + simpl in Hpq. by destruct (Q e).
  - eexists _, _. split; [done|]. simpl.
    unfold PushVehicle. by destruct (decide (ID v ∈ Q e)).
Qed.

(** The three ways in which a tick of a vehicle that is not parked can
    succeed: merging the last two entries, arriving, or advancing. *)
Lemma Step_cases (g g' : Graph) (v v' : Vehicle) :
  IsParked v = false → Step g v = Ok (g', v') →
  ∃ i e q r,
    GetCurrentEdge g v = Ok (Some i) ∧ Edges g !! i = Some e ∧
    PathLength v = q ++ [r] ∧
    ((∃ q0 a, PrimFloat.leb r (Speed v) = true ∧ q = q0 ++ [a] ∧
        g' = entered g i e v ∧
        v' = mkVehicle (ID v) (Speed v) (VPath v) (q0 ++ [(r + a)%float])
               false (Some i)) ∨
     (∃ x e'', PrimFloat.leb r (Speed v) = true ∧ q = [] ∧
        PopVehicle (PushVehicle e v) = Ok (x, e'') ∧
        g' = setEdge (entered g i e v) i e'' ∧
        v' = mkVehicle (ID v) (Speed v) (VPath v) [] true (Some i)) ∨
     (PrimFloat.leb r (Speed v) = false ∧
        g' = entered g i e v ∧
        v' = mkVehicle (ID v) (Speed v) (VPath v)
               (q ++ [(r - Speed v)%float]) false (Some i))).
Proof.
  intros Hp Hs. unfold Step in Hs. rewrite Hp in Hs.
  destruct (GetCurrentEdge g v) as [[i|]|] eqn:Hce;
    [|by unfold drive in Hs; rewrite Hce in Hs|by unfold drive in Hs; rewrite Hce in Hs].
  destruct (GetCurrentEdge_valid g v i Hce) as [e He].
  rewrite (drive_enter g v i e Hce He) in Hs. cbn zeta in Hs.
  change (PathLength (setCurrentEdge v (Some i))) with (PathLength v) in Hs.
  change (Speed (setCurrentEdge v (Some i))) with (Speed v) in Hs.
  change (PushVehicle e (setCurrentEdge v (Some i))) with (PushVehicle e v) in Hs.
  change (entered g i e (setCurrentEdge v (Some i))) with (entered g i e v) in Hs.
  destruct (popBack (PathLength v)) as [[r q]|] eqn:Hpop; [|done].
  apply popBack_inv in Hpop. cbn [bind] in Hs.
  exists i, e, q, r. split; [done|]. split; [done|]. split; [done|].
  destruct (PrimFloat.leb r (Speed v)) eqn:Hle; cbn [andb] in Hs.
  - destruct (bool_decide (1 < length (PathLength v))%nat) eqn:Hlen.
    + left. destruct (popBack q) as [[a q0]|] eqn:Hpop2; [|done].
      apply popBack_inv in Hpop2. cbn [bind] in Hs. simplify_eq.
      exists q0, a. repeat split; try done.
      unfold setPathLength, setCurrentEdge, pushBack. simpl. by rewrite Hp.
    + destruct (bool_decide (length (PathLength v) = 1%nat)) eqn:Hone.
      * right. left.
        apply bool_decide_eq_true in Hone. rewrite Hpop in Hone.
        rewrite length_app in Hone. simpl in Hone.
        destruct q as [|? ?]; [|simpl in Hone; lia].
        unfold deref in Hs.
        rewrite (entered_lookup g i e v He) in Hs. cbn [bind] in Hs.
        destruct (PopVehicle_entered e v) as (x & e'' & Hpv & _).
        rewrite Hpv in Hs. cbn [bind] in Hs. simplify_eq.
        exists x, e''. repeat split; try done.
      * exfalso. apply bool_decide_eq_false in Hlen, Hone.
        rewrite Hpop, length_app in Hlen, Hone. simpl in *. lia.
  - right. right. simplify_eq. repeat split; try done.
    unfold setPathLength, setCurrentEdge, pushBack. simpl. by rewrite Hp.
Qed.

(** X1: normal progress.  A vehicle that is not parked, whose current edge
    resolves and whose back entry [r] is not [≤ speed] (it is larger, or the
    comparison fails on a NaN) has this entry replaced by [r - speed]; the
    rest of the ledger and its length are unchanged, the vehicle is not
    parked, and on the queue of its current edge it stays where it is or, if
    it was not on it, is appended; no other edge changes. *)
Theorem Step_normal_progress
    (g : Graph) (v : Vehicle) (q : list float) (r : float) (i : nat) (e : Edge) :
  IsParked v = false →
  PathLength v = q ++ [r] →
  PrimFloat.leb r (Speed v) = false →
  GetCurrentEdge g v = Ok (Some i) →
  Edges g !! i = Some e →
  ∃ g' e',
    Step g v
      = Ok (g', mkVehicle (ID v) (Speed v) (VPath v)
                  (q ++ [(r - Speed v)%float]) false (Some i)) ∧
    Edges g' !! i = Some e' ∧
    (∀ j, j ≠ i → Edges g' !! j = Edges g !! j) ∧
    (ID v ∈ Q e → e' = e) ∧
    (ID v ∉ Q e → Q e' = Q e ++ [ID v]).
Proof.
  intros Hp Hq Hle Hce He. unfold Step. rewrite Hp.
  rewrite (drive_enter g v i e Hce He). cbn zeta.
  change (PathLength (setCurrentEdge v (Some i))) with (PathLength v).
  change (Speed (setCurrentEdge v (Some i))) with (Speed v).
  change (entered g i e (setCurrentEdge v (Some i))) with (entered g i e v).
  rewrite Hq, popBack_snoc. cbn [bind]. rewrite Hle. cbn [andb].
  exists (entered g i e v), (PushVehicle e v). split.
  { unfold setPathLength, setCurrentEdge, pushBack. simpl. by rewrite Hp. }
  split; [by apply entered_lookup|]. split.
  { intros j Hj. unfold entered. by rewrite setEdge_lookup_ne. }
  split.
  - intros Hin. by rewrite (PushVehicle_present _ _ Hin).
  - intros Hout. by apply PushVehicle_absent.
Qed.

Lemma Step_normal_progress_witness :
  ∃ g' e',
    Step (Examples.oneEdge 12 []) (Examples.fresh12 "car" 12 5)
      = Ok (g', mkVehicle (ID (Examples.fresh12 "car" 12 5))
                  (Speed (Examples.fresh12 "car" 12 5))
                  (VPath (Examples.fresh12 "car" 12 5))
                  ([] ++ [(12 - Speed (Examples.fresh12 "car" 12 5))%float])
                  false (Some O)) ∧
    Edges g' !! O = Some e' ∧
    (∀ j, j ≠ O → Edges g' !! j = Edges (Examples.oneEdge 12 []) !! j) ∧
    (ID (Examples.fresh12 "car" 12 5) ∈ Q (mkEdge 0 1 2 12 50 []) →
       e' = mkEdge 0 1 2 12 50 []) ∧
    (ID (Examples.fresh12 "car" 12 5) ∉ Q (mkEdge 0 1 2 12 50 []) →
       Q e' = Q (mkEdge 0 1 2 12 50 []) ++ [ID (Examples.fresh12 "car" 12 5)]).
Proof.
  apply (Step_normal_progress (Examples.oneEdge 12 [])
           (Examples.fresh12 "car" 12 5) [] 12 O (mkEdge 0 1 2 12 50 []));
    reflexivity.
Defined.

(** X2: a vehicle that is not parked and has an empty ledger cannot be
    stepped: whatever the network and the path, [Step] panics (on the nil
    current edge of an empty path, on the index past a one-vertex path, on
    a missing first edge, or on [Back()] of the empty deque). *)
Theorem Step_empty_ledger_panics (g : Graph) (v : Vehicle) :
  IsParked v = false → PathLength v = [] →
  ∃ msg, Step g v = Panic msg.
Proof.
  intros Hp Hq.
  destruct (Step g v) as [[g' v']|msg] eqn:Hs; [|by exists msg].
  destruct (Step_cases g g' v v' Hp Hs) as (i & e & q & r & _ & _ & Hpl & _).
  rewrite Hq in Hpl. by destruct q.
Qed.

Lemma Step_empty_ledger_panics_witness :
  ∃ msg,
    Step (Examples.oneEdge 0 [])
         (mkVehicle "car" 5 Examples.path12 [] false None) = Panic msg.
Proof.
  apply (Step_empty_ledger_panics (Examples.oneEdge 0 [])
           (mkVehicle "car" 5 Examples.path12 [] false None));
    reflexivity.
Defined.

(** The vehicle that [NewVehicle] builds on a path whose edges all have
    length zero is such a vehicle. *)
Example zero_length_path_cannot_step :
  NewVehicle "car" Examples.path12 5 (Examples.oneEdge 0 [])
    = Ok (mkVehicle "car" 5 Examples.path12 [] false None) ∧
  Step (Examples.oneEdge 0 []) (mkVehicle "car" 5 Examples.path12 [] false None)
    = Panic "deque: PopBack() called when empty".
Proof. split; reflexivity. Qed.

(** X3: a successful tick of a vehicle that is not parked parks it exactly
    when the ledger was a single entry [≤ speed]; the ledger afterwards is
    empty exactly when the vehicle is parked, and it has the length it had
    or one entry less. *)
Theorem Step_parks_exactly_on_arrival (g g' : Graph) (v v' : Vehicle) :
  IsParked v = false → Step g v = Ok (g', v') →
  (IsParked v' = true ↔
     ∃ r, PathLength v = [r] ∧ PrimFloat.leb r (Speed v) = true) ∧
  (PathLength v' = [] ↔ IsParked v' = true) ∧
  (length (PathLength v') = length (PathLength v) ∨
   S (length (PathLength v')) = length (PathLength v)).
Proof.
  intros Hp Hs.
  destruct (Step_cases g g' v v' Hp Hs)
    as (i & e & q & r & _ & _ & Hpl &
        [(q0 & a & Hle & -> & -> & ->)|
         [(x & e'' & Hle & -> & _ & -> & ->)|(Hle & -> & ->)]]);
    simpl; rewrite Hpl.
  - split; [|split].
    + split; [done|]. intros (r' & Hr' & _).
      apply (f_equal length) in Hr'. rewrite !length_app in Hr'.
      simpl in Hr'. lia.
    + split; [|done]. intros H. by destruct q0.
    + right. rewrite !length_app. simpl. lia.
  - split; [|split].
    + split; [|done]. intros _. by exists r.
    + done.
    + right. done.
  - split; [|split].
    + split; [done|]. intros (r' & Hr' & Hle').
      destruct q as [|? [|? ?]]; simplify_eq/=. congruence.
    + split; [|done]. intros H. by destruct q.
    + left. by rewrite !length_app.
Qed.

Lemma Step_parks_exactly_on_arrival_witness :
  (IsParked (mkVehicle "car" 5 Examples.path12 [] true (Some O)) = true ↔
     ∃ r, PathLength (Examples.onEdge12 "car" 2 5) = [r] ∧
          PrimFloat.leb r (Speed (Examples.onEdge12 "car" 2 5)) = true) ∧
  (PathLength (mkVehicle "car" 5 Examples.path12 [] true (Some O)) = [] ↔
     IsParked (mkVehicle "car" 5 Examples.path12 [] true (Some O)) = true) ∧
  (length (PathLength (mkVehicle "car" 5 Examples.path12 [] true (Some O)))
     = length (PathLength (Examples.onEdge12 "car" 2 5)) ∨
   S (length (PathLength (mkVehicle "car" 5 Examples.path12 [] true (Some O))))
     = length (PathLength (Examples.onEdge12 "car" 2 5))).
Proof.
  apply (Step_parks_exactly_on_arrival (Examples.oneEdge 12 ["car"])
           (Examples.oneEdge 12 []) (Examples.onEdge12 "car" 2 5)
           (mkVehicle "car" 5 Examples.path12 [] true (Some O)));
    reflexivity.
Defined.

End EveryTick.

(** ** What a tick leaves alone *)

Section Frame.
Import Streets.

Lemma PushVehicle_static (e : Edge) (v : Vehicle) :
  EID (PushVehicle e v) = EID e ∧
  FromVertex (PushVehicle e v) = FromVertex e ∧
  ToVertex (PushVehicle e v) = ToVertex e ∧
  Length (PushVehicle e v) = Length e ∧
  MaxSpeed (PushVehicle e v) = MaxSpeed e.
Proof. unfold PushVehicle. by destruct (decide (ID v ∈ Q e)). Qed.

Lemma setEdge_length (g : Graph) (i : nat) (e : Edge) :
  length (Edges (setEdge g i e)) = length (Edges g).
Proof. unfold setEdge. simpl. apply length_insert. Qed.

(** X4: a successful [Step] never changes the identifier, the speed or the
    path of the vehicle and never un-parks it; it keeps the number of edges
    and the identifier, endpoints, length and speed limit of every edge; and
    the only queue it can change is the one of the vehicle's current
    edge. *)
Theorem Step_frame (g g' : Graph) (v v' : Vehicle) :
  Step g v = Ok (g', v') →
  ID v' = ID v ∧ Speed v' = Speed v ∧ VPath v' = VPath v ∧
  (IsParked v = true → g' = g ∧ v' = v) ∧
  length (Edges g') = length (Edges g) ∧
  ∀ j e', Edges g' !! j = Some e' →
    ∃ e, Edges g !! j = Some e ∧
      EID e' = EID e ∧ FromVertex e' = FromVertex e ∧
      ToVertex e' = ToVertex e ∧ Length e' = Length e ∧
      MaxSpeed e' = MaxSpeed e ∧
      (CurrentEdge v' ≠ Some j → Q e' = Q e).
Proof.
  intros Hs. destruct (IsParked v) eqn:Hp.
  { unfold Step in Hs. rewrite Hp in Hs. simplify_eq.
    repeat split; try done. intros j e' He'. exists e'. by repeat split. }
  assert (Hent : ∀ i e, Edges g !! i = Some e →
            length (Edges (entered g i e v)) = length (Edges g) ∧
            ∀ j e', Edges (entered g i e v) !! j = Some e' →
              ∃ e0, Edges g !! j = Some e0 ∧
                EID e' = EID e0 ∧ FromVertex e' = FromVertex e0 ∧
                ToVertex e' = ToVertex e0 ∧ Length e' = Length e0 ∧
                MaxSpeed e' = MaxSpeed e0 ∧ (Some i ≠ Some j → Q e' = Q e0)).
  { intros i e He. split; [apply setEdge_length|].
    intros j e' He'. destruct (decide (j = i)) as [->|Hne].
    - rewrite (entered_lookup g i e v He) in He'. simplify_eq.
      exists e. split; [done|].
      destruct (PushVehicle_static e v) as (? & ? & ? & ? & ?).
      by repeat split.
    - unfold entered in He'. rewrite setEdge_lookup_ne in He' by done.
      exists e'. by repeat split. }
  destruct (Step_cases g g' v v' Hp Hs)
    as (i & e & q & r & _ & He & _ &
        [(q0 & a & _ & _ & -> & ->)|
         [(x & e'' & _ & _ & Hpv & -> & ->)|(_ & -> & ->)]]);
    cbn [ID Speed VPath IsParked CurrentEdge];
    destruct (Hent i e He) as [Hlen Hall].
  - by repeat split.
  - split; [done|]. split; [done|]. split; [done|]. split; [done|].
    split; [by rewrite setEdge_length|].
    intros j e' He'. destruct (decide (j = i)) as [->|Hne].
    + rewrite (setEdge_lookup _ i (PushVehicle e v) e'') in He'
        by by apply entered_lookup.
      simplify_eq. exists e. split; [done|].
      destruct (PopVehicle_entered e v) as (x' & e3 & Hpv' & _ & H1).
      rewrite Hpv in Hpv'. simplify_eq.
      destruct H1 as (? & ? & ? & ? & ?). by repeat split.
    + rewrite setEdge_lookup_ne in He' by done.
      destruct (Hall j e' He') as (e0 & ? & ? & ? & ? & ? & ? & HQ).
      exists e0. repeat split; try done; intros _; apply HQ; congruence.
  - by repeat split.
Qed.

Lemma Step_frame_witness :
  ID (mkVehicle "car" 5 Examples.path12 [7%float] false (Some O))
    = ID (Examples.fresh12 "car" 12 5) ∧
  Speed (mkVehicle "car" 5 Examples.path12 [7%float] false (Some O))
    = Speed (Examples.fresh12 "car" 12 5) ∧
  VPath (mkVehicle "car" 5 Examples.path12 [7%float] false (Some O))
    = VPath (Examples.fresh12 "car" 12 5) ∧
  (IsParked (Examples.fresh12 "car" 12 5) = true →
     Examples.oneEdge 12 ["car"] = Examples.oneEdge 12 [] ∧
     mkVehicle "car" 5 Examples.path12 [7%float] false (Some O)
       = Examples.fresh12 "car" 12 5) ∧
  length (Edges (Examples.oneEdge 12 ["car"]))
    = length (Edges (Examples.oneEdge 12 [])) ∧
  ∀ j e', Edges (Examples.oneEdge 12 ["car"]) !! j = Some e' →
    ∃ e, Edges (Examples.oneEdge 12 []) !! j = Some e ∧
      EID e' = EID e ∧ FromVertex e' = FromVertex e ∧
      ToVertex e' = ToVertex e ∧ Length e' = Length e ∧
      MaxSpeed e' = MaxSpeed e ∧
      (CurrentEdge (mkVehicle "car" 5 Examples.path12 [7%float] false (Some O))
         ≠ Some j → Q e' = Q e).
Proof.
  apply (Step_frame (Examples.oneEdge 12 []) (Examples.oneEdge 12 ["car"])
           (Examples.fresh12 "car" 12 5)
           (mkVehicle "car" 5 Examples.path12 [7%float] false (Some O))).
  reflexivity.
Defined.

(** Once parked, a vehicle and the network are left as they are by any
    number of further ticks. *)
Lemma parked_is_terminal (n : nat) (g : Graph) (v : Vehicle) :
  IsParked v = true → steps n g v = Ok (g, v).
Proof.
  intros Hp. induction n as [|n IH]; [done|].
  simpl. unfold Step. rewrite Hp. simpl. exact IH.
Qed.

(** X5: a queue without repeated vehicles stays without repeated vehicles:
    [drive] enqueues a vehicle only when [GetPosition] does not find it. *)
Theorem Step_keeps_queues_duplicate_free (g g' : Graph) (v v' : Vehicle) :
  Step g v = Ok (g', v') →
  Forall (λ e, NoDup (Q e)) (Edges g) →
  Forall (λ e', NoDup (Q e')) (Edges g').
Proof.
  intros Hs Hall. rewrite Forall_lookup in Hall. apply Forall_lookup.
  assert (Hnd : ∀ j e, Edges g !! j = Some e → NoDup (Q e)) by exact Hall.
  clear Hall. destruct (IsParked v) eqn:Hp.
  { unfold Step in Hs. rewrite Hp in Hs. by simplify_eq. }
  assert (Hpush : ∀ e, NoDup (Q e) → NoDup (Q (PushVehicle e v))).
  { intros e He. unfold PushVehicle.
    destruct (decide (ID v ∈ Q e)) as [|Hout]; [done|]. simpl.
    apply NoDup_app. split; [done|]. split.
    - intros x Hx Hx'. apply list_elem_of_singleton in Hx'. by subst.
    - apply NoDup_singleton. }
  assert (Hent : ∀ i e, Edges g !! i = Some e →
            ∀ j e', Edges (entered g i e v) !! j = Some e' → NoDup (Q e')).
  { intros i e He j e' He'. destruct (decide (j = i)) as [->|Hne].
    - rewrite (entered_lookup g i e v He) in He'. simplify_eq.
      apply Hpush. by apply (Hnd i).
    - unfold entered in He'. rewrite setEdge_lookup_ne in He' by done.
      by apply (Hnd j). }
  destruct (Step_cases g g' v v' Hp Hs)
    as (i & e & q & r & _ & He & _ &
        [(q0 & a & _ & _ & -> & ->)|
         [(x & e'' & _ & _ & Hpv & -> & ->)|(_ & -> & ->)]]);
    [by apply Hent| |by apply Hent].
  intros j e' He'. destruct (decide (j = i)) as [->|Hne].
  - rewrite (setEdge_lookup _ i (PushVehicle e v) e'') in He'
      by by apply entered_lookup.
    simplify_eq.
    destruct (PopVehicle_entered e v) as (x' & e3 & Hpv' & HQ & _).
    rewrite Hpv in Hpv'. simplify_eq.
    assert (Hn : NoDup (Q (PushVehicle e v))) by (apply Hpush; by apply (Hnd i)).
    rewrite HQ in Hn. by apply NoDup_cons in Hn as [_ ?].
  - rewrite setEdge_lookup_ne in He' by done. by apply (Hent i e He j).
Qed.

Lemma Step_keeps_queues_duplicate_free_witness :
  Forall (λ e', NoDup (Q e')) (Edges (Examples.oneEdge 12 ["slow"; "fast"])).
Proof.
  apply (Step_keeps_queues_duplicate_free (Examples.oneEdge 12 ["slow"])
           (Examples.oneEdge 12 ["slow"; "fast"])
           (Examples.fresh12 "fast" 12 5)
           (mkVehicle "fast" 5 Examples.path12 [7%float] false (Some O))).
  - reflexivity.
  - apply Forall_cons. split; [apply NoDup_singleton|apply Forall_nil_2].
Defined.

(** X6: after a successful tick that does not park the vehicle, the vehicle
    is on the queue of its current edge, and [IsLeading] does not panic: it
    tells whether the vehicle is at position 0 of that queue. *)
Theorem IsLeading_after_Step (g g' : Graph) (v v' : Vehicle) :
  IsParked v = false → Step g v = Ok (g', v') → IsParked v' = false →
  ∃ i e',
    CurrentEdge v' = Some i ∧ Edges g' !! i = Some e' ∧ ID v' ∈ Q e' ∧
    GetPosition e' v' ≠ NotInQueue ∧
    IsLeading g' v' = Ok (bool_decide (GetPosition e' v' = 0)).
Proof.
  intros Hp Hs Hp'.
  assert (Hin : ∀ e, ID v ∈ Q (PushVehicle e v)).
  { intros e. unfold PushVehicle.
    destruct (decide (ID v ∈ Q e)) as [|Hout]; [done|]. simpl.
    apply elem_of_app. right. left. }
  destruct (Step_cases g g' v v' Hp Hs)
    as (i & e & q & r & _ & He & _ &
        [(q0 & a & _ & _ & -> & ->)|
         [(x & e'' & _ & _ & Hpv & -> & ->)|(_ & -> & ->)]]);
    [|done|].
  - exists i, (PushVehicle e v). split; [done|].
    split; [by apply entered_lookup|]. split; [apply Hin|]. split.
    + intros Habs. apply GetPosition_absent in Habs. apply Habs, Hin.
    + apply (IsLeading_on_edge _ _ i); [done|by apply entered_lookup|apply Hin].
  - exists i, (PushVehicle e v). split; [done|].
    split; [by apply entered_lookup|]. split; [apply Hin|]. split.
    + intros Habs. apply GetPosition_absent in Habs. apply Habs, Hin.
    + apply (IsLeading_on_edge _ _ i); [done|by apply entered_lookup|apply Hin].
Qed.

Lemma IsLeading_after_Step_witness :
  ∃ i e',
    CurrentEdge (mkVehicle "fast" 5 Examples.path12 [7%float] false (Some O))
      = Some i ∧
    Edges (Examples.oneEdge 12 ["slow"; "fast"]) !! i = Some e' ∧
    ID (mkVehicle "fast" 5 Examples.path12 [7%float] false (Some O)) ∈ Q e' ∧
    GetPosition e' (mkVehicle "fast" 5 Examples.path12 [7%float] false (Some O))
      ≠ NotInQueue ∧
    IsLeading (Examples.oneEdge 12 ["slow"; "fast"])
      (mkVehicle "fast" 5 Examples.path12 [7%float] false (Some O))
    = Ok (bool_decide
            (GetPosition e'
               (mkVehicle "fast" 5 Examples.path12 [7%float] false (Some O))
             = 0)).
Proof.
  apply (IsLeading_after_Step (Examples.oneEdge 12 ["slow"])
           (Examples.oneEdge 12 ["slow"; "fast"])
           (Examples.fresh12 "fast" 12 5)
           (mkVehicle "fast" 5 Examples.path12 [7%float] false (Some O)));
    reflexivity.
Defined.

Lemma pathLengthsFrom_panics (g : Graph) (vs : list Vertex) (i : nat)
    (a b : Vertex) :
  vs !! i = Some a → vs !! S i = Some b →
  GetCorrespondingEdge g a b = None →
  pathLengthsFrom g vs = Panic "Failed to get corresponding edge".
Proof.
  revert i. induction vs as [|x vs IH]; intros i Ha Hb Hnone; [done|].
  simpl. destruct vs as [|y vs]; [by destruct i|].
  destruct i as [|i].
  - simpl in Ha, Hb. simplify_eq. by rewrite Hnone.
  - destruct (GetCorrespondingEdge g x y) as [[j e]|]; [|done].
    by rewrite (IH i Ha Hb Hnone).
Qed.

(** X7: [NewVehicle] returns a vehicle exactly when every two consecutive
    vertices of the path are joined by an edge of the network, and panics
    as soon as one pair is not; a path of fewer than two vertices always
    yields a vehicle, with an empty ledger.  The vehicle returned has the
    given identifier, speed and path, is not parked, has no current edge,
    and its ledger has at most one entry per edge of the path. *)
Theorem NewVehicle_ok_iff_connected
    (id : string) (path : Path) (speed : float) (g : Graph) :
  ((∃ v, NewVehicle id path speed g = Ok v) ↔
   (∀ i a b, Vertices path !! i = Some a → Vertices path !! S i = Some b →
      is_Some (GetCorrespondingEdge g a b))) ∧
  (∀ i a b, Vertices path !! i = Some a → Vertices path !! S i = Some b →
     GetCorrespondingEdge g a b = None →
     NewVehicle id path speed g = Panic "Failed to get corresponding edge") ∧
  ((length (Vertices path) ≤ 1)%nat →
     NewVehicle id path speed g = Ok (mkVehicle id speed path [] false None)) ∧
  (∀ v, NewVehicle id path speed g = Ok v →
     ID v = id ∧ Speed v = speed ∧ VPath v = path ∧ IsParked v = false ∧
     CurrentEdge v = None ∧
     (length (PathLength v) ≤ pred (length (Vertices path)))%nat).
Proof.
  split; [|split; [|split]].
  - split.
    + intros [v Hv] i a b Ha Hb.
      destruct (NewVehicle_ledger id path speed g v Hv)
        as (ls & _ & _ & Hall & _).
      destruct (Hall i a b Ha Hb) as (j & e & -> & _). by eexists.
    + apply NewVehicle_total.
  - intros i a b Ha Hb Hnone. unfold NewVehicle, GetPathLengths.
    by rewrite (pathLengthsFrom_panics g _ i a b Ha Hb Hnone).
  - intros Hlen. unfold NewVehicle, GetPathLengths.
    destruct (Vertices path) as [|a [|b vs]]; [done|done|simpl in Hlen; lia].
  - intros v Hv.
    destruct (NewVehicle_ledger id path speed g v Hv)
      as (ls & Hls & Hlen & _ & Hq & _).
    unfold NewVehicle in Hv. rewrite Hls in Hv. simpl in Hv. simplify_eq.
    simpl. repeat split. rewrite <- Hlen. apply length_filter.
Qed.

End Frame.

(** ** The order of binary64 numbers *)

Section FloatOrder.

Lemma SFcompare_antisym (a b : spec_float) :
  SFcompare b a = CompOpp <$> SFcompare a b.
Proof.
  destruct a as [[]|[]| |[] ma ea], b as [[]|[]| |[] mb eb]; try done; simpl.
  - rewrite (Z.compare_antisym ea eb).
    destruct (ea ?= eb)%Z; simpl; try done.
    rewrite (ZC4 mb ma). by destruct (PosDef.Pos.compare_cont Eq ma mb).
  - rewrite (Z.compare_antisym ea eb).
    destruct (ea ?= eb)%Z; simpl; try done.
    rewrite (ZC4 mb ma). by destruct (PosDef.Pos.compare_cont Eq ma mb).
Qed.

Lemma SFcompare_refl (a : spec_float) :
  a ≠ S754_nan → SFcompare a a = Some Eq.
Proof.
  destruct a as [[]|[]| |[] m e]; try done; intros _; simpl;
    rewrite Z.compare_refl;
    change (PosDef.Pos.compare_cont Eq m m) with (Pos.compare m m);
    by rewrite Pos.compare_refl.
Qed.

Lemma SFcompare_lt_trans (a b c : spec_float) :
  SFcompare a b = Some Lt → SFcompare b c = Some Lt → SFcompare a c = Some Lt.
Proof.
  destruct a as [[]|[]| |[] ma ea], b as [[]|[]| |[] mb eb],
    c as [[]|[]| |[] mc ec]; try done; simpl;
    change PosDef.Pos.compare_cont with Pos.compare_cont;
    fold (Pos.compare ma mb); fold (Pos.compare mb mc); fold (Pos.compare ma mc);
    destruct (Z.compare_spec ea eb), (Z.compare_spec eb ec),
      (Z.compare_spec ea ec); try lia; try done;
    destruct (Pos.compare_spec ma mb), (Pos.compare_spec mb mc),
      (Pos.compare_spec ma mc); try lia; try done.
Qed.

Lemma SFcompare_None (a b : spec_float) :
  SFcompare a b = None ↔ a = S754_nan ∨ b = S754_nan.
Proof.
  destruct a as [[]|[]| |[] ma ea], b as [[]|[]| |[] mb eb]; simpl;
    split; try done; try (by left); try (by right); by intros [?|?].
Qed.

Lemma is_nan_spec (x : float) :
  PrimFloat.is_nan x = false ↔ Prim2SF x ≠ S754_nan.
Proof.
  unfold PrimFloat.is_nan. rewrite FloatAxioms.eqb_spec. unfold SFeqb. split.
  - intros H Hn. rewrite Hn in H. done.
  - intros H. by rewrite (SFcompare_refl _ H).
Qed.

Lemma ltb_lt (x y : float) :
  PrimFloat.ltb x y = true ↔ SFcompare (Prim2SF x) (Prim2SF y) = Some Lt.
Proof.
  rewrite FloatAxioms.ltb_spec. unfold SFltb.
  by destruct (SFcompare (Prim2SF x) (Prim2SF y)) as [[]|].
Qed.

Lemma ltb_trans (x y z : float) :
  PrimFloat.ltb x y = true → PrimFloat.ltb y z = true →
  PrimFloat.ltb x z = true.
Proof. rewrite !ltb_lt. apply SFcompare_lt_trans. Qed.

Lemma ltb_not_nan (x y : float) :
  PrimFloat.ltb x y = true →
  PrimFloat.is_nan x = false ∧ PrimFloat.is_nan y = false.
Proof.
  rewrite ltb_lt, !is_nan_spec. intros H.
  split; intros Hn; rewrite Hn in H; [done|].
  by destruct (Prim2SF x) as [[]|[]| |[] ? ?].
Qed.

(** Of two numbers, the first is not above the second exactly when the second
    is not below the first. *)
Lemma leb_not_ltb (x y : float) :
  PrimFloat.is_nan x = false → PrimFloat.is_nan y = false →
  PrimFloat.leb x y = negb (PrimFloat.ltb y x).
Proof.
  rewrite !is_nan_spec. intros Hx Hy.
  rewrite FloatAxioms.leb_spec, FloatAxioms.ltb_spec. unfold SFleb, SFltb.
  rewrite (SFcompare_antisym (Prim2SF x) (Prim2SF y)).
  destruct (SFcompare (Prim2SF x) (Prim2SF y)) as [[]|] eqn:Hc; try done.
  apply SFcompare_None in Hc as [?|?]; done.
Qed.

Lemma leb_nan_l (x y : float) :
  PrimFloat.is_nan x = true → PrimFloat.leb x y = false.
Proof.
  intros Hx. rewrite FloatAxioms.leb_spec. unfold SFleb.
  destruct (Prim2SF x) as [s|s| |s m e] eqn:Hn; [| |done|];
    (assert (Hne : Prim2SF x ≠ S754_nan) by (by rewrite Hn);
     apply is_nan_spec in Hne; congruence).
Qed.

End FloatOrder.

(** ** The bounding box encloses what it scans *)

Section Enclosure.
Import Lib Partition Scan.

Lemma scan_running (vs : list GVertex) (acc : float * float * float * float) :
  accBotX (foldl scanStep acc vs) = runningMin X (accBotX acc) vs ∧
  accBotY (foldl scanStep acc vs) = runningMin Y (accBotY acc) vs ∧
  accTopX (foldl scanStep acc vs) = runningMax X (accTopX acc) vs ∧
  accTopY (foldl scanStep acc vs) = runningMax Y (accTopY acc) vs.
Proof.
  revert acc. induction vs as [|v vs IH]; intros acc; [done|].
  simpl. destruct (IH (scanStep acc v)) as (H1 & H2 & H3 & H4).
  rewrite H1, H2, H3, H4. unfold runningMin, runningMax. simpl.
  by destruct acc as [[[bx by_] tx] ty].
Qed.

Lemma ltb_irrefl (x : float) : PrimFloat.ltb x x = false.
Proof.
  destruct (PrimFloat.ltb x x) eqn:H; [|done].
  by rewrite (ltb_asym _ _ H) in H.
Qed.

Lemma runningMin_below (f : GVertex → float) (vs : list GVertex) (b x : float) :
  PrimFloat.ltb x (runningMin f b vs) = true → PrimFloat.ltb x b = true.
Proof.
  revert b. induction vs as [|v vs IH]; intros b H; [done|].
  change (runningMin f b (v :: vs))
    with (runningMin f (if PrimFloat.ltb (f v) b then f v else b) vs) in H.
  apply IH in H. destruct (PrimFloat.ltb (f v) b) eqn:Hlt; [|done].
  by apply (ltb_trans _ _ _ H).
Qed.

Lemma runningMax_above (f : GVertex → float) (vs : list GVertex) (t x : float) :
  PrimFloat.ltb (runningMax f t vs) x = true → PrimFloat.ltb t x = true.
Proof.
  revert t. induction vs as [|v vs IH]; intros t H; [done|].
  change (runningMax f t (v :: vs))
    with (runningMax f (if PrimFloat.ltb t (f v) then f v else t) vs) in H.
  apply IH in H. destruct (PrimFloat.ltb t (f v)) eqn:Hlt; [|done].
  by apply (ltb_trans _ _ _ Hlt).
Qed.

Lemma runningMin_spec (f : GVertex → float) (vs : list GVertex) (b : float) :
  PrimFloat.is_nan b = false →
  PrimFloat.is_nan (runningMin f b vs) = false ∧
  (∀ v, v ∈ vs → PrimFloat.ltb (f v) (runningMin f b vs) = false) ∧
  (runningMin f b vs = b ∨ ∃ v, v ∈ vs ∧ runningMin f b vs = f v).
Proof.
  revert b. induction vs as [|v vs IH]; intros b Hb.
  - split; [done|]. split; [|by left].
    intros v Hv. by apply not_elem_of_nil in Hv.
  - change (runningMin f b (v :: vs))
      with (runningMin f (if PrimFloat.ltb (f v) b then f v else b) vs).
    destruct (PrimFloat.ltb (f v) b) eqn:Hlt.
    + destruct (ltb_not_nan _ _ Hlt) as [Hfv _].
      destruct (IH (f v) Hfv) as (Hn & Hall & Hatt).
      split; [done|]. split.
      * intros w Hw. apply elem_of_cons in Hw as [->|Hw]; [|by apply Hall].
        destruct (PrimFloat.ltb (f v) (runningMin f (f v) vs)) eqn:H; [|done].
        apply runningMin_below in H. by rewrite ltb_irrefl in H.
      * right. destruct Hatt as [->|(w & Hw & ->)].
        -- exists v. split; [left|done].
        -- exists w. split; [by right|done].
    + destruct (IH b Hb) as (Hn & Hall & Hatt).
      split; [done|]. split.
      * intros w Hw. apply elem_of_cons in Hw as [->|Hw]; [|by apply Hall].
        destruct (PrimFloat.ltb (f v) (runningMin f b vs)) eqn:H; [|done].
        apply runningMin_below in H. congruence.
      * destruct Hatt as [->|(w & Hw & ->)]; [by left|].
        right. exists w. split; [by right|done].
Qed.

Lemma runningMax_spec (f : GVertex → float) (vs : list GVertex) (t : float) :
  PrimFloat.is_nan t = false →
  PrimFloat.is_nan (runningMax f t vs) = false ∧
  (∀ v, v ∈ vs → PrimFloat.ltb (runningMax f t vs) (f v) = false) ∧
  (runningMax f t vs = t ∨ ∃ v, v ∈ vs ∧ runningMax f t vs = f v).
Proof.
  revert t. induction vs as [|v vs IH]; intros t Ht.
  - split; [done|]. split; [|by left].
    intros v Hv. by apply not_elem_of_nil in Hv.
  - change (runningMax f t (v :: vs))
      with (runningMax f (if PrimFloat.ltb t (f v) then f v else t) vs).
    destruct (PrimFloat.ltb t (f v)) eqn:Hlt.
    + destruct (ltb_not_nan _ _ Hlt) as [_ Hfv].
      destruct (IH (f v) Hfv) as (Hn & Hall & Hatt).
      split; [done|]. split.
      * intros w Hw. apply elem_of_cons in Hw as [->|Hw]; [|by apply Hall].
        destruct (PrimFloat.ltb (runningMax f (f v) vs) (f v)) eqn:H; [|done].
        apply runningMax_above in H. by rewrite ltb_irrefl in H.
      * right. destruct Hatt as [->|(w & Hw & ->)].
        -- exists v. split; [left|done].
        -- exists w. split; [by right|done].
    + destruct (IH t Ht) as (Hn & Hall & Hatt).
      split; [done|]. split.
      * intros w Hw. apply elem_of_cons in Hw as [->|Hw]; [|by apply Hall].
        destruct (PrimFloat.ltb (runningMax f t vs) (f v)) eqn:H; [|done].
        apply runningMax_above in H. congruence.
      * destruct Hatt as [->|(w & Hw & ->)]; [by left|].
        right. exists w. split; [by right|done].
Qed.

(** X8: the bounding box of a graph of the library encloses every vertex
    that is scanned: no scanned vertex has a coordinate below the minimum or
    above the maximum, so every scanned coordinate that is a number passes
    both inclusive comparisons against the box.  None of the four bounds is
    a NaN, and each of them is its seed or a coordinate of a scanned
    vertex. *)
Theorem bounding_box_encloses (ord : list Z → list Z) (g : LGraph) :
  (∀ l, ord l ≡ₚ l) → wf g →
  ∃ vs bot top,
    GetVertices ord g = inr vs ∧
    GetTopRightBottomLeftVertices ord g = (bot, top) ∧
    (∀ v, v ∈ vs →
       PrimFloat.ltb (X v) (PX bot) = false ∧
       PrimFloat.ltb (Y v) (PY bot) = false ∧
       PrimFloat.ltb (PX top) (X v) = false ∧
       PrimFloat.ltb (PY top) (Y v) = false) ∧
    (∀ v, v ∈ vs → PrimFloat.is_nan (X v) = false →
       PrimFloat.leb (PX bot) (X v) = true ∧
       PrimFloat.leb (X v) (PX top) = true) ∧
    (∀ v, v ∈ vs → PrimFloat.is_nan (Y v) = false →
       PrimFloat.leb (PY bot) (Y v) = true ∧
       PrimFloat.leb (Y v) (PY top) = true) ∧
    (PrimFloat.is_nan (PX bot) = false ∧ PrimFloat.is_nan (PY bot) = false ∧
     PrimFloat.is_nan (PX top) = false ∧ PrimFloat.is_nan (PY top) = false) ∧
    (PX bot = 100%float ∨ ∃ v, v ∈ vs ∧ PX bot = X v) ∧
    (PY bot = 100%float ∨ ∃ v, v ∈ vs ∧ PY bot = Y v) ∧
    (PX top = 0%float ∨ ∃ v, v ∈ vs ∧ PX top = X v) ∧
    (PY top = 0%float ∨ ∃ v, v ∈ vs ∧ PY top = Y v).
Proof.
  intros Hord Hwf.
  destruct (GetVertices_ok ord g Hord Hwf) as (vs & Hvs & _).
  destruct (scan_running vs seedBox) as (H1 & H2 & H3 & H4).
  exists vs, (mkPoint (runningMin X 100 vs) (runningMin Y 100 vs)),
    (mkPoint (runningMax X 0 vs) (runningMax Y 0 vs)).
  split; [done|]. split.
  { unfold GetTopRightBottomLeftVertices. rewrite Hvs, scanBox_acc.
    by rewrite H1, H2, H3, H4. }
  destruct (runningMin_spec X vs 100 eq_refl) as (Hn1 & Ha1 & Ht1).
  destruct (runningMin_spec Y vs 100 eq_refl) as (Hn2 & Ha2 & Ht2).
  destruct (runningMax_spec X vs 0 eq_refl) as (Hn3 & Ha3 & Ht3).
  destruct (runningMax_spec Y vs 0 eq_refl) as (Hn4 & Ha4 & Ht4).
  simpl. split; [by auto|]. split; [|split].
  - intros v Hv Hx.
    rewrite (leb_not_ltb _ _ Hn1 Hx), (leb_not_ltb _ _ Hx Hn3).
    by rewrite (Ha1 v Hv), (Ha3 v Hv).
  - intros v Hv Hy.
    rewrite (leb_not_ltb _ _ Hn2 Hy), (leb_not_ltb _ _ Hy Hn4).
    by rewrite (Ha2 v Hv), (Ha4 v Hv).
  - by repeat split.
Qed.

Lemma bounding_box_encloses_witness :
  ∃ vs bot top,
    GetVertices Examples.asListed Examples.unitSpan = inr vs ∧
    GetTopRightBottomLeftVertices Examples.asListed Examples.unitSpan
      = (bot, top) ∧
    (∀ v, v ∈ vs →
       PrimFloat.ltb (X v) (PX bot) = false ∧
       PrimFloat.ltb (Y v) (PY bot) = false ∧
       PrimFloat.ltb (PX top) (X v) = false ∧
       PrimFloat.ltb (PY top) (Y v) = false) ∧
    (∀ v, v ∈ vs → PrimFloat.is_nan (X v) = false →
       PrimFloat.leb (PX bot) (X v) = true ∧
       PrimFloat.leb (X v) (PX top) = true) ∧
    (∀ v, v ∈ vs → PrimFloat.is_nan (Y v) = false →
       PrimFloat.leb (PY bot) (Y v) = true ∧
       PrimFloat.leb (Y v) (PY top) = true) ∧
    (PrimFloat.is_nan (PX bot) = false ∧ PrimFloat.is_nan (PY bot) = false ∧
     PrimFloat.is_nan (PX top) = false ∧ PrimFloat.is_nan (PY top) = false) ∧
    (PX bot = 100%float ∨ ∃ v, v ∈ vs ∧ PX bot = X v) ∧
    (PY bot = 100%float ∨ ∃ v, v ∈ vs ∧ PY bot = Y v) ∧
    (PX top = 0%float ∨ ∃ v, v ∈ vs ∧ PX top = X v) ∧
    (PY top = 0%float ∨ ∃ v, v ∈ vs ∧ PY top = Y v).
Proof.
  apply (bounding_box_encloses Examples.asListed Examples.unitSpan).
  - intros l. reflexivity.
  - unfold Examples.unitSpan.
    apply wf_AddEdge, wf_AddVertex, wf_AddVertex, wf_New.
Defined.

End Enclosure.

(** ** Strips and their vertices *)

Section StripVertices.
Import Lib Partition Scan.

Lemma wf_unitSpan : wf Examples.unitSpan.
Proof.
  unfold Examples.unitSpan.
  apply wf_AddEdge, wf_AddVertex, wf_AddVertex, wf_New.
Qed.



(** X10: on a graph of the library a negative number of strips panics
    ([make] with a negative length) and zero strips yield no rect. *)
Theorem DivideGraphsIntoRects_bounds (ord1 ord2 : list Z → list Z) (n : Z)
    (g : LGraph) :
  (∀ l, ord2 l ≡ₚ l) → wf g →
  (n < 0 →
     DivideGraphsIntoRects ord1 ord2 n g = Panic "makeslice: len out of range") ∧
  (n = 0 → DivideGraphsIntoRects ord1 ord2 n g = Ok (inr [])).
Proof.
  intros Hord Hwf.
  destruct (GetVertices_ok ord2 g Hord Hwf) as (vs & Hvs & _).
  unfold DivideGraphsIntoRects.
  destruct (GetTopRightBottomLeftVertices ord1 g) as [bot top].
  rewrite Hvs. split.
  - intros Hn. by rewrite decide_True.
  - intros ->. by rewrite decide_False.
Qed.

Lemma DivideGraphsIntoRects_bounds_witness :
  (-1 < 0 →
     DivideGraphsIntoRects Examples.asListed Examples.asListed (-1)
       Examples.unitSpan = Panic "makeslice: len out of range") ∧
  (-1 = 0 →
     DivideGraphsIntoRects Examples.asListed Examples.asListed (-1)
       Examples.unitSpan = Ok (inr [])).
Proof.
  apply (DivideGraphsIntoRects_bounds Examples.asListed Examples.asListed (-1)
           Examples.unitSpan).
  - intros l. reflexivity.
  - exact wf_unitSpan.
Defined.

(** X11: which vertices a strip holds.  For a graph of the library, the
    vertices of rect [i] are exactly the endpoint vertices whose y
    coordinate is a number and whose x coordinate lies between the two
    x-bounds of the rect, both inclusive: the test against the y-range of
    the box never excludes a vertex whose y coordinate is a number. *)
Theorem strip_vertices_by_x (ord1 ord2 : list Z → list Z) (n : Z) (g : LGraph) :
  (∀ l, ord1 l ≡ₚ l) → (∀ l, ord2 l ≡ₚ l) → wf g → 0 ≤ n →
  ∃ vs rects,
    GetVertices ord2 g = inr vs ∧
    DivideGraphsIntoRects ord1 ord2 n g = Ok (inr rects) ∧
    ∀ (i : nat) r, rects !! i = Some r →
      ∀ v, v ∈ RVertices r ↔
        v ∈ vs ∧ PrimFloat.is_nan (Y v) = false ∧
        PrimFloat.leb (PX (BotLeft r)) (X v) = true ∧
        PrimFloat.leb (X v) (PX (TopRight r)) = true.
Proof.
  intros Hord1 Hord2 Hwf Hn.
  destruct (DivideGraphsIntoRects_strips ord1 ord2 n g Hord2 Hwf Hn)
    as (vs & rects & Hvs & Hdiv & Hlen & Hstrip & _ & _).
  destruct (bounding_box_encloses ord1 g Hord1 Hwf)
    as (vs1 & bot & top & Hvs1 & Hbox & _ & _ & Hy & _).
  destruct (GetVertices_ok ord1 g Hord1 Hwf) as (vs1' & Hvs1' & Hmem1).
  destruct (GetVertices_ok ord2 g Hord2 Hwf) as (vs' & Hvs' & Hmem2).
  rewrite Hvs1 in Hvs1'. rewrite Hvs in Hvs'. simplify_eq.
  exists vs', rects. split; [done|]. split; [done|].
  intros i r Hr.
  assert (Hi : Z.of_nat i < n).
  { apply lookup_lt_Some in Hr. lia. }
  rewrite (Hstrip i Hi), Hbox in Hr. simplify_eq.
  intros v. unfold strip. cbn [RVertices BotLeft TopRight PX PY fst snd].
  rewrite list_elem_of_filter. split.
  - intros [Hcond Hv]. split; [done|].
    apply andb_true_iff in Hcond as [Hyy Hxx].
    apply andb_true_iff in Hyy as [_ Hy2].
    apply andb_true_iff in Hxx as [Hx1 Hx2].
    split; [|done].
    destruct (PrimFloat.is_nan (Y v)) eqn:Hnan; [|done].
    by rewrite (leb_nan_l _ _ Hnan) in Hy2.
  - intros (Hv & Hnan & Hx1 & Hx2). split; [|done].
    assert (Hv1 : v ∈ vs1'). { apply Hmem1. by apply Hmem2. }
    destruct (Hy v Hv1 Hnan) as [Hy1 Hy2].
    by rewrite Hy1, Hy2, Hx1, Hx2.
Qed.

Lemma strip_vertices_by_x_witness :
  ∃ vs rects,
    GetVertices Examples.asListed Examples.unitSpan = inr vs ∧
    DivideGraphsIntoRects Examples.asListed Examples.asListed 2
      Examples.unitSpan = Ok (inr rects) ∧
    ∀ (i : nat) r, rects !! i = Some r →
      ∀ v, v ∈ RVertices r ↔
        v ∈ vs ∧ PrimFloat.is_nan (Y v) = false ∧
        PrimFloat.leb (PX (BotLeft r)) (X v) = true ∧
        PrimFloat.leb (X v) (PX (TopRight r)) = true.
Proof.
  apply (strip_vertices_by_x Examples.asListed Examples.asListed 2
           Examples.unitSpan).
  - intros l. reflexivity.
  - intros l. reflexivity.
  - exact wf_unitSpan.
  - lia.
Defined.

End StripVertices.

(** ** More on the subgraph of a rect *)

Section SubgraphMore.
Import Lib Partition Scan.

Lemma addVertices_lookup (vs : list GVertex) (g : LGraph) (k : Z) :
  vertices (foldl (λ g vertex, (AddVertex g vertex).1) g vs) !! k =
    match vertices g !! k with
    | Some v => Some v
    | None => snd <$> list_find (λ v, GID v = k) vs
    end.
Proof.
  revert g. induction vs as [|v vs IH]; intros g; simpl.
  - by destruct (vertices g !! k).
  - rewrite IH. unfold AddVertex.
    destruct (vertices g !! GID v) eqn:Hv; simpl.
    + destruct (vertices g !! k) eqn:Hk; [done|].
      rewrite decide_False by congruence.
      destruct (list_find _ vs) as [[? ?]|]; done.
    + destruct (decide (GID v = k)) as [<-|Hne].
      * by rewrite lookup_insert_eq, Hv.
      * rewrite lookup_insert_ne by done.
        destruct (vertices g !! k); [done|].
        destruct (list_find _ vs) as [[? ?]|]; done.
Qed.

Lemma GraphFromRect_vertices_eq (es : list RawEdge) (rect : Rect) :
  vertices (GraphFromRect es rect)
  = vertices (foldl (λ g vertex, (AddVertex g vertex).1) (New false)
                (RVertices rect)).
Proof.
  unfold GraphFromRect.
  by destruct (addRectEdges_spec rect es _ (rectGraph_vertices rect))
    as (_ & -> & _).
Qed.

(** X12: the vertices of the graph of a rect do not depend on the input
    edges: under an identifier the graph holds the first vertex of
    [rect.Vertices] with that identifier (a later one with the same
    identifier is refused by [AddVertex] and skipped), so [VertexInGraph] on
    the result agrees with [InRect]. *)
Theorem GraphFromRect_vertices (es : list RawEdge) (rect : Rect) :
  (∀ k, vertices (GraphFromRect es rect) !! k
        = snd <$> list_find (λ v, GID v = k) (RVertices rect)) ∧
  (∀ v, VertexInGraph (GraphFromRect es rect) v = InRect rect v) ∧
  vertices (GraphFromRect es rect) = vertices (GraphFromRect [] rect).
Proof.
  assert (Hk : ∀ k, vertices (GraphFromRect es rect) !! k
                = snd <$> list_find (λ v, GID v = k) (RVertices rect)).
  { intros k. rewrite GraphFromRect_vertices_eq, addVertices_lookup.
    simpl. by rewrite lookup_empty. }
  split; [done|]. split.
  - intros v. unfold VertexInGraph, Vertex. rewrite Hk, InRect_hasID.
    destruct (list_find _ (RVertices rect)) as [[i w]|] eqn:Hf; simpl.
    + symmetry. apply hasID_spec.
      apply list_find_Some in Hf as (Hi & Hw & _).
      exists w. split; [|done]. by eapply list_elem_of_lookup_2.
    + destruct (hasID rect (GID v)) eqn:Hh; [|done].
      apply hasID_spec in Hh as (w & Hw & Hwv).
      apply list_find_None in Hf. rewrite Forall_forall in Hf.
      by destruct (Hf w Hw).
  - by rewrite !GraphFromRect_vertices_eq.
Qed.

Lemma LGraph_eq (g g' : LGraph) :
  directed g = directed g' → vertices g = vertices g' → edges g = edges g' →
  g = g'.
Proof. destruct g, g'. simpl. by intros -> -> ->. Qed.

(** X13: the graph of a rect depends on the input edges only as a set of
    unordered pairs: two inputs that hold the same pairs, in whatever
    order, orientation and multiplicity, give the same graph.  So the
    construction is idempotent and insensitive to reordering, and an empty
    input gives a graph without edges. *)
Theorem GraphFromRect_input_as_set (es : list RawEdge) (rect : Rect) :
  (∀ es',
     (∀ s t, (mkRawEdge s t ∈ es' ∨ mkRawEdge t s ∈ es') ↔
             (mkRawEdge s t ∈ es ∨ mkRawEdge t s ∈ es)) →
     GraphFromRect es' rect = GraphFromRect es rect) ∧
  GraphFromRect (es ++ es) rect = GraphFromRect es rect ∧
  (∀ es', es' ≡ₚ es → GraphFromRect es' rect = GraphFromRect es rect) ∧
  GraphFromRect (reverse es) rect = GraphFromRect es rect ∧
  edges (GraphFromRect [] rect) = ∅.
Proof.
  assert (Hmain : ∀ es',
     (∀ s t, (mkRawEdge s t ∈ es' ∨ mkRawEdge t s ∈ es') ↔
             (mkRawEdge s t ∈ es ∨ mkRawEdge t s ∈ es)) →
     GraphFromRect es' rect = GraphFromRect es rect).
  { intros es' Hsame.
    destruct (GraphFromRect_spec es rect) as ((Hd & _) & He).
    destruct (GraphFromRect_spec es' rect) as ((Hd' & _) & He').
    apply LGraph_eq.
    - by rewrite Hd, Hd'.
    - by rewrite !GraphFromRect_vertices_eq.
    - apply set_eq. intros [a b]. rewrite He, He', Hsame. done. }
  split; [done|]. split; [|split; [|split]].
  - apply Hmain. intros s t. rewrite !elem_of_app. tauto.
  - intros es' Hperm. apply Hmain. intros s t. by rewrite !Hperm.
  - apply Hmain. intros s t. by rewrite !elem_of_reverse.
  - destruct (GraphFromRect_spec [] rect) as (_ & He).
    apply set_eq. intros [a b]. rewrite He. split.
    + intros (_ & _ & [H|H]); by apply not_elem_of_nil in H.
    + intros H. by apply not_elem_of_empty in H.
Qed.

End SubgraphMore.

(** ** Graphs of the library, their vertices and their edges *)

Section LibraryGraphs.
Import Lib Partition Scan.

Lemma keyed_New (d : bool) : keyed (New d).
Proof. intros k v H. simpl in H. by rewrite lookup_empty in H. Qed.

Lemma keyed_AddVertex (g : LGraph) (v : GVertex) :
  keyed g → keyed (AddVertex g v).1.
Proof.
  intros Hk. unfold AddVertex.
  destruct (vertices g !! GID v) eqn:Hv; [done|]. simpl.
  intros k w Hw. simpl in Hw.
  destruct (decide (GID v = k)) as [<-|Hne].
  - rewrite lookup_insert_eq in Hw. by simplify_eq.
  - rewrite lookup_insert_ne in Hw by done. by apply Hk.
Qed.

Lemma vertices_AddEdge (g : LGraph) (s t : Z) :
  vertices (AddEdge g s t).1 = vertices g.
Proof.
  unfold AddEdge.
  destruct (vertices g !! s), (vertices g !! t); try done.
  by destruct (hasEdge g s t).
Qed.

Lemma keyed_AddEdge (g : LGraph) (s t : Z) : keyed g → keyed (AddEdge g s t).1.
Proof. intros Hk k v. rewrite vertices_AddEdge. apply Hk. Qed.

Lemma wf_keyed_addVertices (vs : list GVertex) (g : LGraph) :
  wf g → keyed g →
  wf (foldl (λ g vertex, (AddVertex g vertex).1) g vs) ∧
  keyed (foldl (λ g vertex, (AddVertex g vertex).1) g vs).
Proof.
  revert g. induction vs as [|v vs IH]; intros g Hwf Hk; [done|].
  simpl. apply IH; [by apply wf_AddVertex|by apply keyed_AddVertex].
Qed.

Lemma wf_keyed_GraphFromRect (es : list RawEdge) (rect : Rect) :
  wf (GraphFromRect es rect) ∧ keyed (GraphFromRect es rect).
Proof.
  unfold GraphFromRect.
  destruct (wf_keyed_addVertices (RVertices rect) (New false)
              (wf_New false) (keyed_New false)) as [Hwf Hk].
  revert Hwf Hk.
  generalize (foldl (λ g vertex, (AddVertex g vertex).1) (New false)
                (RVertices rect)).
  induction es as [|e es IH]; intros g Hwf Hk; [done|].
  simpl. apply IH; unfold addRectEdge;
    destruct (hasID rect (Source e) && hasID rect (Target e)); try done.
  - by apply wf_AddEdge.
  - by apply keyed_AddEdge.
Qed.

Lemma endpoint_iff (g : LGraph) (k : Z) :
  wf g →
  k ∈ endpointSet (Edges g) ↔ ∃ s t, (s, t) ∈ edges g ∧ (k = s ∨ k = t).
Proof.
  intros [_ Hsym]. rewrite endpointSet_spec. split.
  - intros ([s t] & He & Hk). exists s, t. split; [by apply Edges_sound|done].
  - intros (s & t & He & Hk). unfold Edges.
    destruct (directed g) eqn:Hd.
    + exists (s, t). split; [by apply elem_of_elements|done].
    + destruct (decide (s ≤ t)).
      * exists (s, t). split; [|done].
        apply list_elem_of_filter. split; [done|]. by apply elem_of_elements.
      * exists (t, s). split; [|simpl; tauto].
        apply list_elem_of_filter. split; [simpl; lia|].
        apply elem_of_elements. by apply Hsym.
Qed.

Lemma lookupAll_ids (g : LGraph) (keys : list Z) (vs : list GVertex) :
  keyed g → lookupAll g keys = inr vs → GID <$> vs = keys.
Proof.
  intros Hk. revert vs. induction keys as [|k keys IH]; intros vs H.
  - simpl in H. by simplify_eq.
  - simpl in H. unfold Vertex in H.
    destruct (vertices g !! k) as [v|] eqn:Hv; [|done].
    destruct (lookupAll g keys) as [|ws]; [done|]. simplify_eq.
    rewrite fmap_cons. f_equal; [by apply Hk|by apply IH].
Qed.

(** X14: [GetVertices] lists every endpoint once.  On a graph of the
    library the identifiers of the vertices it returns are the distinct
    endpoints of the edges, in the order of the map iteration: none is
    repeated, and there are as many vertices as distinct endpoints. *)
Theorem GetVertices_one_per_endpoint (ord : list Z → list Z) (g : LGraph) :
  (∀ l, ord l ≡ₚ l) → wf g → keyed g →
  ∃ vs,
    GetVertices ord g = inr vs ∧
    GID <$> vs = ord (elements (endpointSet (Edges g))) ∧
    NoDup (GID <$> vs) ∧
    length vs = size (endpointSet (Edges g)) ∧
    (∀ k, k ∈ (GID <$> vs) ↔ ∃ s t, (s, t) ∈ edges g ∧ (k = s ∨ k = t)).
Proof.
  intros Hord Hwf Hk.
  destruct (GetVertices_ok ord g Hord Hwf) as (vs & Hvs & _).
  exists vs. split; [done|].
  assert (Hids : GID <$> vs = ord (elements (endpointSet (Edges g)))).
  { by apply (lookupAll_ids g). }
  split; [done|]. rewrite Hids. split; [|split].
  - rewrite Hord. apply NoDup_elements.
  - apply (f_equal length) in Hids. rewrite length_fmap in Hids.
    rewrite Hids, Hord. done.
  - intros k. rewrite Hord, elem_of_elements. by apply endpoint_iff.
Qed.

Lemma keyed_unitSpan : keyed Examples.unitSpan.
Proof.
  unfold Examples.unitSpan.
  apply keyed_AddEdge, keyed_AddVertex, keyed_AddVertex, keyed_New.
Qed.

Lemma GetVertices_one_per_endpoint_witness :
  ∃ vs,
    GetVertices Examples.asListed Examples.unitSpan = inr vs ∧
    GID <$> vs
      = Examples.asListed (elements (endpointSet (Edges Examples.unitSpan))) ∧
    NoDup (GID <$> vs) ∧
    length vs = size (endpointSet (Edges Examples.unitSpan)) ∧
    (∀ k, k ∈ (GID <$> vs) ↔
       ∃ s t, (s, t) ∈ edges Examples.unitSpan ∧ (k = s ∨ k = t)).
Proof.
  apply (GetVertices_one_per_endpoint Examples.asListed Examples.unitSpan).
  - intros l. reflexivity.
  - exact wf_unitSpan.
  - exact keyed_unitSpan.
Defined.

(** X15: the graph of a rect is again a graph of the library, so
    [GetVertices] reads it without error; it returns vertices of the rect
    only, namely those stored in the graph that have at least one edge
    there. *)
Theorem GetVertices_of_subgraph (ord : list Z → list Z) (es : list RawEdge)
    (rect : Rect) :
  (∀ l, ord l ≡ₚ l) →
  wf (GraphFromRect es rect) ∧ keyed (GraphFromRect es rect) ∧
  ∃ vs,
    GetVertices ord (GraphFromRect es rect) = inr vs ∧
    (∀ v, v ∈ vs → v ∈ RVertices rect) ∧
    (∀ v, v ∈ vs ↔
       vertices (GraphFromRect es rect) !! GID v = Some v ∧
       ∃ t, hasEdge (GraphFromRect es rect) (GID v) t = true).
Proof.
  intros Hord.
  destruct (wf_keyed_GraphFromRect es rect) as [Hwf Hk].
  split; [done|]. split; [done|].
  destruct (GetVertices_ok ord _ Hord Hwf) as (vs & Hvs & Hmem).
  destruct (GraphFromRect_spec es rect) as (HJ & _).
  pose proof HJ as (_ & _ & Hsym).
  exists vs. split; [done|].
  assert (Hchar : ∀ v, v ∈ vs ↔
            vertices (GraphFromRect es rect) !! GID v = Some v ∧
            ∃ t, hasEdge (GraphFromRect es rect) (GID v) t = true).
  { intros v. rewrite Hmem. split.
    - intros (k & Hend & Hv). pose proof (Hk k v Hv) as <-.
      split; [done|].
      apply (endpoint_iff _ _ Hwf) in Hend as (s & t & He & [->| ->]).
      + exists t. by apply (hasEdge_rectGraph rect).
      + exists s. apply (hasEdge_rectGraph rect); [done|]. by apply Hsym.
    - intros (Hv & t & Ht). exists (GID v). split; [|done].
      apply (endpoint_iff _ _ Hwf). exists (GID v), t.
      split; [|by left]. by apply (hasEdge_rectGraph rect) in Ht. }
  split; [|done].
  intros v Hv. apply Hchar in Hv as [Hv _].
  destruct (GraphFromRect_vertices es rect) as (Hfind & _).
  rewrite Hfind in Hv.
  destruct (list_find _ (RVertices rect)) as [[i w]|] eqn:Hf; [|done].
  simpl in Hv. simplify_eq.
  apply list_find_Some in Hf as (Hi & _). by eapply list_elem_of_lookup_2.
Qed.

Lemma GetVertices_of_subgraph_witness :
  wf (GraphFromRect [mkRawEdge 1 2]
        (mkRect (mkPoint 1 1) (mkPoint 0 0) [mkGVertex 1 0 0; mkGVertex 2 1 1])) ∧
  keyed (GraphFromRect [mkRawEdge 1 2]
        (mkRect (mkPoint 1 1) (mkPoint 0 0) [mkGVertex 1 0 0; mkGVertex 2 1 1])) ∧
  ∃ vs,
    GetVertices Examples.asListed
      (GraphFromRect [mkRawEdge 1 2]
        (mkRect (mkPoint 1 1) (mkPoint 0 0) [mkGVertex 1 0 0; mkGVertex 2 1 1]))
      = inr vs ∧
    (∀ v, v ∈ vs →
       v ∈ RVertices
         (mkRect (mkPoint 1 1) (mkPoint 0 0) [mkGVertex 1 0 0; mkGVertex 2 1 1])) ∧
    (∀ v, v ∈ vs ↔
       vertices (GraphFromRect [mkRawEdge 1 2]
         (mkRect (mkPoint 1 1) (mkPoint 0 0) [mkGVertex 1 0 0; mkGVertex 2 1 1]))
         !! GID v = Some v ∧
       ∃ t, hasEdge (GraphFromRect [mkRawEdge 1 2]
         (mkRect (mkPoint 1 1) (mkPoint 0 0) [mkGVertex 1 0 0; mkGVertex 2 1 1]))
         (GID v) t = true).
Proof.
  apply (GetVertices_of_subgraph Examples.asListed [mkRawEdge 1 2]
           (mkRect (mkPoint 1 1) (mkPoint 0 0)
              [mkGVertex 1 0 0; mkGVertex 2 1 1])).
  intros l. reflexivity.
Defined.

End LibraryGraphs.

(** ** The source network *)

Section SourceNetwork.
Import Lib Partition Scan.

Lemma addEdges_directed_spec (es : list JEdge) (g : LGraph) :
  directed g = true →
  vertices (foldl (λ g edge, (AddEdge g (From edge) (To edge)).1) g es)
    = vertices g ∧
  ∀ s t,
    (s, t) ∈ edges (foldl (λ g edge, (AddEdge g (From edge) (To edge)).1) g es)
    ↔ (s, t) ∈ edges g ∨
      (is_Some (vertices g !! s) ∧ is_Some (vertices g !! t) ∧
       ∃ e, e ∈ es ∧ From e = s ∧ To e = t).
Proof.
  revert g. induction es as [|e es IH]; intros g Hd; simpl.
  - split; [done|]. intros s t. split; [by left|].
    intros [?|(_ & _ & e & He & _)]; [done|]. by apply not_elem_of_nil in He.
  - assert (Hd1 : directed (AddEdge g (From e) (To e)).1 = true)
      by by rewrite directed_AddEdge.
    destruct (IH _ Hd1) as (Hv & He). rewrite vertices_AddEdge in Hv.
    split; [done|]. intros s t. rewrite He, vertices_AddEdge.
    assert (Hstep : (s, t) ∈ edges (AddEdge g (From e) (To e)).1 ↔
              (s, t) ∈ edges g ∨
              (is_Some (vertices g !! s) ∧ is_Some (vertices g !! t) ∧
               From e = s ∧ To e = t)).
    { unfold AddEdge.
      destruct (vertices g !! From e) eqn:Hs.
      - destruct (vertices g !! To e) eqn:Ht.
        + destruct (hasEdge g (From e) (To e)) eqn:Hh; simpl.
          * split; [by left|]. intros [?|(_ & _ & <- & <-)]; [done|].
            unfold hasEdge in Hh. rewrite Hd in Hh. simpl in Hh.
            rewrite orb_false_r in Hh. by apply bool_decide_eq_true in Hh.
          * rewrite Hd, elem_of_union, elem_of_singleton. split.
            -- intros [?|?]; [|by left]. simplify_eq. right.
               by rewrite Hs, Ht.
            -- intros [?|(_ & _ & <- & <-)]; [by right|by left].
        + simpl. split; [by left|].
          intros [?|(_ & [? Ht'] & _ & <-)]; [done|congruence].
      - simpl. split; [by left|].
        intros [?|([? Hs'] & _ & <- & _)]; [done|congruence]. }
    rewrite Hstep. split.
    + intros [[?|(? & ? & ? & ?)]|(? & ? & e' & ? & ? & ?)].
      * by left.
      * right. split; [done|]. split; [done|]. exists e. split; [left|done].
      * right. split; [done|]. split; [done|]. exists e'. split; [by right|done].
    + intros [?|(? & ? & e' & He' & ? & ?)]; [by left; left|].
      apply elem_of_cons in He' as [->|He'].
      * left. right. done.
      * right. split; [done|]. split; [done|]. by exists e'.
Qed.

(** X16: the source network.  [NewGraph] builds a directed graph of the
    library; under an identifier it holds the first input vertex with that
    [OsmID]; and it has an edge from [s] to [t] exactly when some input edge
    goes from [s] to [t] and both are identifiers of input vertices: an edge
    to an undeclared vertex is dropped without an error, a repeated edge is
    kept once, and no reverse edge is added. *)
Theorem NewGraph_spec (vs : list JVertex) (es : list JEdge) :
  directed (NewGraph vs es) = true ∧
  wf (NewGraph vs es) ∧ keyed (NewGraph vs es) ∧
  (∀ k, vertices (NewGraph vs es) !! k
        = (λ p, mkGVertex (OsmID p.2) (JX p.2) (JY p.2))
            <$> list_find (λ v, OsmID v = k) vs) ∧
  (∀ s t, hasEdge (NewGraph vs es) s t = true ↔
     (∃ e, e ∈ es ∧ From e = s ∧ To e = t) ∧
     (∃ v, v ∈ vs ∧ OsmID v = s) ∧ (∃ v, v ∈ vs ∧ OsmID v = t)).
Proof.
  destruct (NewGraph_directed vs es) as [Hd Hwf].
  split; [done|]. split; [done|].
  unfold NewGraph in *.
  set (conv := λ vertex : JVertex,
         mkGVertex (OsmID vertex) (JX vertex) (JY vertex)).
  assert (Hfold : ∀ g,
            foldl (λ g vertex, (AddVertex g (conv vertex)).1) g vs
            = foldl (λ g vertex, (AddVertex g vertex).1) g (conv <$> vs)).
  { clear. induction vs as [|v vs' IH]; intros g; [done|]. simpl. apply IH. }
  fold conv in Hd, Hwf. fold conv.
  rewrite Hfold in *.
  set (g0 := foldl (λ g vertex, (AddVertex g vertex).1) (New true)
               (conv <$> vs)) in *.
  assert (Hd0 : directed g0 = true).
  { unfold g0. by destruct (addVertices_spec (conv <$> vs) (New true))
      as (-> & _). }
  assert (He0 : edges g0 = ∅).
  { unfold g0. by destruct (addVertices_spec (conv <$> vs) (New true))
      as (_ & -> & _). }
  assert (Hk0 : keyed g0).
  { unfold g0. apply wf_keyed_addVertices; [apply wf_New|apply keyed_New]. }
  assert (Hv0 : ∀ k, vertices g0 !! k
            = (λ p, conv p.2) <$> list_find (λ v, OsmID v = k) vs).
  { intros k. unfold g0. rewrite addVertices_lookup. simpl.
    rewrite lookup_empty, list_find_fmap.
    by destruct (list_find _ vs) as [[? ?]|]. }
  destruct (addEdges_directed_spec es g0 Hd0) as (Hv & He).
  split.
  { intros k w. rewrite Hv. apply Hk0. }
  split.
  { intros k. rewrite Hv. apply Hv0. }
  assert (Hdom : ∀ k, is_Some (vertices g0 !! k) ↔ ∃ v, v ∈ vs ∧ OsmID v = k).
  { intros k. rewrite Hv0. split.
    - intros [w Hw]. destruct (list_find _ vs) as [[i v]|] eqn:Hf; [|done].
      apply list_find_Some in Hf as (Hi & Hvk & _).
      exists v. split; [by eapply list_elem_of_lookup_2|done].
    - intros (v & Hin & Hvk).
      destruct (list_find (λ v, OsmID v = k) vs) as [[i w]|] eqn:Hf; [done|].
      apply list_find_None in Hf. rewrite Forall_forall in Hf.
      by destruct (Hf v Hin). }
  intros s t. unfold hasEdge. rewrite Hd. simpl. rewrite orb_false_r.
  rewrite bool_decide_eq_true, He, He0, !Hdom. split.
  - intros [H|(? & ? & ?)]; [by apply not_elem_of_empty in H|done].
  - intros (? & ? & ?). right. done.
Qed.

(** A declared edge 1 → 2, an edge to the undeclared vertex 9 and a repeated
    edge: the network keeps 1 → 2 once, in this direction only. *)
Example NewGraph_drops_undeclared :
  hasEdge (NewGraph [mkJVertex 1 0 0; mkJVertex 2 1 1]
             [mkJEdge 1 2 5 "30"; mkJEdge 2 9 5 "x"; mkJEdge 1 2 7 "50"])
          1 2 = true ∧
  hasEdge (NewGraph [mkJVertex 1 0 0; mkJVertex 2 1 1]
             [mkJEdge 1 2 5 "30"; mkJEdge 2 9 5 "x"; mkJEdge 1 2 7 "50"])
          2 1 = false ∧
  edges (NewGraph [mkJVertex 1 0 0; mkJVertex 2 1 1]
           [mkJEdge 1 2 5 "30"; mkJEdge 2 9 5 "x"; mkJEdge 1 2 7 "50"])
    = {[ (1, 2) ]}.
Proof. vm_compute. repeat split. Qed.

End SourceNetwork.

(** ** First edge and first strip *)

Section Firsts.
Import Streets Lib Partition.

Lemma Step_succeeds (g : Graph) (v : Vehicle) (i : nat) :
  IsParked v = false → PathLength v ≠ [] →
  GetCurrentEdge g v = Ok (Some i) →
  ∃ g' v', Step g v = Ok (g', v') ∧ CurrentEdge v' = Some i.
Proof.
  intros Hp Hne Hce.
  destruct (GetCurrentEdge_valid g v i Hce) as [e He].
  unfold Step. rewrite Hp.
  rewrite (drive_enter g v i e Hce He). cbn zeta.
  change (PathLength (setCurrentEdge v (Some i))) with (PathLength v).
  change (Speed (setCurrentEdge v (Some i))) with (Speed v).
  destruct (exists_last Hne) as (l & x & Hq). rewrite Hq.
  rewrite popBack_snoc. cbn [bind].
  destruct (PrimFloat.leb x (Speed v)); cbn [andb].
  - destruct (decide (l = [])) as [->|Hl].
    + rewrite bool_decide_false by (simpl; lia).
      rewrite bool_decide_true by done.
      unfold deref.
      rewrite (entered_lookup g i e _ He). cbn [bind].
      destruct (PopVehicle_entered e (setCurrentEdge v (Some i)))
        as (z & e'' & -> & _).
      cbn [bind]. by eexists _, _.
    + destruct (exists_last Hl) as (q & y & ->).
      rewrite bool_decide_true by (rewrite !length_app; simpl; lia).
      rewrite popBack_snoc. cbn [bind]. by eexists _, _.
  - by eexists _, _.
Qed.

(** X17: the first tick of a vehicle that [NewVehicle] built with a
    non-empty ledger does not panic, and it makes the first edge of the
    path, from [path[0]] to [path[1]], the vehicle's current edge, whatever
    the number of edges of the path. *)
Theorem first_tick_enters_first_edge
    (id : string) (path : Path) (speed : float) (g : Graph) (v : Vehicle) :
  NewVehicle id path speed g = Ok v → PathLength v ≠ [] →
  ∃ a b i e g' v',
    Vertices path !! O = Some a ∧ Vertices path !! 1%nat = Some b ∧
    GetCorrespondingEdge g a b = Some (i, e) ∧
    Step g v = Ok (g', v') ∧ CurrentEdge v' = Some i.
Proof.
  intros Hnew Hne.
  destruct (GetCurrentEdge_after_construction id path speed g v Hnew Hne)
    as (a & b & i & e & Ha & Hb & Hab & Hce & _).
  assert (Hp : IsParked v = false).
  { unfold NewVehicle in Hnew.
    destruct (GetPathLengths g path); simpl in Hnew; by simplify_eq. }
  destruct (Step_succeeds g v i Hp Hne Hce) as (g' & v' & Hs & Hc).
  by exists a, b, i, e, g', v'.
Qed.

Lemma first_tick_enters_first_edge_witness :
  ∃ a b i e g' v',
    Vertices Examples.path123 !! O = Some a ∧
    Vertices Examples.path123 !! 1%nat = Some b ∧
    GetCorrespondingEdge Examples.twoEdges a b = Some (i, e) ∧
    Step Examples.twoEdges (Examples.fresh123 20) = Ok (g', v') ∧
    CurrentEdge v' = Some i.
Proof.
  apply (first_tick_enters_first_edge "car" Examples.path123 20
           Examples.twoEdges (Examples.fresh123 20)).
  - reflexivity.
  - discriminate.
Defined.

(** X18: the first rect starts at the left bound of the bounding box.  For a
    graph of the library and at least one strip, the bottom x of rect 0 is
    [botX] itself whenever the strip width [(topX - botX)/n] is a number
    (not an infinity or a NaN) and [botX] is not the negative zero. *)
Theorem first_rect_starts_at_box (ord1 ord2 : list Z → list Z) (n : Z)
    (g : LGraph) :
  (∀ l, ord2 l ≡ₚ l) → wf g → 0 < n →
  F.finite ((PX (GetTopRightBottomLeftVertices ord1 g).2
             - PX (GetTopRightBottomLeftVertices ord1 g).1) / F.of_int n)%float
    = true →
  F.negzero (PX (GetTopRightBottomLeftVertices ord1 g).1) = false →
  ∃ rects r,
    DivideGraphsIntoRects ord1 ord2 n g = Ok (inr rects) ∧
    rects !! O = Some r ∧
    PX (BotLeft r) = PX (GetTopRightBottomLeftVertices ord1 g).1.
Proof.
  intros Hord Hwf Hn Hfin Hneg.
  destruct (DivideGraphsIntoRects_strips ord1 ord2 n g Hord Hwf)
    as (vs & rects & _ & Hdiv & _ & Hstrip & _); [lia|].
  eexists rects, _. split; [done|].
  split; [apply (Hstrip O); simpl; lia|].
  by apply first_strip_bottom.
Qed.

Lemma first_rect_starts_at_box_witness :
  ∃ rects r,
    DivideGraphsIntoRects Examples.asListed Examples.asListed 49
      Examples.unitSpan = Ok (inr rects) ∧
    rects !! O = Some r ∧
    PX (BotLeft r)
      = PX (GetTopRightBottomLeftVertices Examples.asListed
              Examples.unitSpan).1.
Proof.
  apply (first_rect_starts_at_box Examples.asListed Examples.asListed 49
           Examples.unitSpan).
  - intros l. reflexivity.
  - exact wf_unitSpan.
  - lia.
  - vm_compute. reflexivity.
  - vm_compute. reflexivity.
Defined.

End Firsts.
